(** * Quantiles of table columns: cpp/src/quantiles/quantiles.cu

    A shallow embedding of the quantile selection code of
    [cudf::experimental] and the properties of its specification.

    Conventions of the embedding.
    - [double] values are exact rationals ([Q]): rounding, infinities and
      NaN are outside the model, comparisons and arithmetic are exact.
    - [size_type] (a 32-bit signed integer) and [size_t] (a 64-bit unsigned
      integer) are [Z] with the wrap-around of a conversion written out.
    - A [T const*] is a buffer together with an offset; reading outside the
      buffer, or indexing a [std::vector] past its end, is undefined
      behaviour in C++ and is the failure [out_of_bounds] here.
    - A C++ exception is the [Err] case of [result]. *)

From Stdlib Require Import ZArith QArith Qround List Bool Lia Sorted.
Import ListNotations.

Local Open Scope Z_scope.

(** ** Failures and the error monad *)

Inductive failure : Type :=
| unsupported_type   (* CUDF_FAIL("non-arithmetic types are unsupported") *)
| not_implemented    (* cudf::logic_error("not implemented"), the default arm *)
| out_of_bounds.     (* a read outside a buffer or a vector *)

Inductive result (A : Type) : Type :=
| Ok (a : A)
| Err (e : failure).

Arguments Ok {A} a.
Arguments Err {A} e.

Definition bind {A B : Type} (c : result A) (k : A -> result B) : result B :=
  match c with
  | Ok a => k a
  | Err e => Err e
  end.

Notation "x <- c ;; k" := (bind c (fun x => k))
  (at level 61, c at next level, right associativity).

Definition is_ok {A : Type} (c : result A) : bool :=
  match c with Ok _ => true | Err _ => false end.

(** ** Machine integers *)

Definition size_type_max : Z := 2 ^ 31 - 1.

(** Conversion of an integer to [size_type]. *)
Definition size_type_wrap (z : Z) : Z := (z + 2 ^ 31) mod 2 ^ 32 - 2 ^ 31.

(** Conversion of an integer to [size_t]. *)
Definition size_t_wrap (z : Z) : Z := z mod 2 ^ 64.

(** ** Doubles *)

Definition double : Type := Q.

Definition double_le (a b : double) : bool := Qle_bool a b.
Definition double_lt (a b : double) : bool := negb (Qle_bool b a).

(** [std::max(a, b)] is [(a < b) ? b : a]; [std::min(a, b)] is
    [(b < a) ? b : a]. *)
Definition std_max (a b : double) : double := if double_lt a b then b else a.
Definition std_min (a b : double) : double := if double_lt b a then b else a.

Definition std_floor (v : double) : double := inject_Z (Qfloor v).
Definition std_ceil (v : double) : double := inject_Z (Qceiling v).

(** [std::nearbyint] in the default rounding mode: to nearest, ties to the
    even neighbour. *)
Definition std_nearbyint (v : double) : double :=
  let f := Qfloor v in
  let d := (v - inject_Z f)%Q in
  if double_lt d (1 # 2) then inject_Z f
  else if double_lt (1 # 2) d then inject_Z (f + 1)
  else if Z.even f then inject_Z f else inject_Z (f + 1).

(** Conversion of a double to an integer type discards the fractional part. *)
Definition double_trunc (v : double) : Z :=
  if double_lt v 0%Q then Qceiling v else Qfloor v.

Definition size_type_of_double (v : double) : Z := size_type_wrap (double_trunc v).
Definition size_t_of_double (v : double) : Z := size_t_wrap (double_trunc v).
Definition double_of_size_type (z : Z) : double := inject_Z z.

(** ** struct quantile_index *)

Record quantile_index : Type := {
  lower_bound : Z;
  upper_bound : Z;
  nearest : Z;
  fraction : double
}.

(** The constructor [quantile_index(size_type count, double quantile)]. *)
Definition quantile_index_ctor (count : Z) (quantile : double) : quantile_index :=
  let quantile := std_min (std_max quantile 0%Q) 1%Q in
  let val := (quantile * double_of_size_type (size_type_wrap (count - 1)))%Q in
  let lower := size_type_of_double (std_floor val) in
  {| lower_bound := lower;
     upper_bound := size_type_wrap (size_t_of_double (std_ceil val));
     nearest := size_type_wrap (size_t_of_double (std_nearbyint val));
     fraction := (val - double_of_size_type lower)%Q |}.

(** ** Enumerations *)

Inductive extrema_minmax : Type := extrema_min | extrema_max.

Inductive interpolation : Type := LINEAR | MIDPOINT | LOWER | HIGHER | NEAREST.

Inductive order : Type := ASCENDING | DESCENDING.

Inductive null_order : Type := AFTER | BEFORE.

Definition null_order_eqb (a b : null_order) : bool :=
  match a, b with
  | AFTER, AFTER | BEFORE, BEFORE => true
  | _, _ => false
  end.

(** ** Scalars: [numeric_scalar<double>(value, is_valid = true)] *)

Record scalar : Type := { value : double; is_valid : bool }.

Definition numeric_scalar (v : double) : scalar :=
  {| value := v; is_valid := true |}.

Definition numeric_scalar_with (v : double) (valid : bool) : scalar :=
  {| value := v; is_valid := valid |}.

(** ** Pointers into a buffer *)

Record pointer (T : Type) : Type := { ptr_buf : list T; ptr_off : Z }.

Arguments ptr_buf {T} p.
Arguments ptr_off {T} p.

Definition ptr_add {T : Type} (p : pointer T) (n : Z) : pointer T :=
  {| ptr_buf := ptr_buf p; ptr_off := ptr_off p + n |}.

(** [get_array_value<T, TResult>(devarr, location)].  Its declared return
    type is [T]: the [static_cast<TResult>] of the return statement is
    converted back to [T], so the element comes back as it is stored and
    the callers convert it where they assign it. *)
Definition get_array_value {T : Type} (devarr : pointer T) (location : Z) : result T :=
  let i := ptr_off devarr + location in
  if i <? 0 then Err out_of_bounds
  else match nth_error (ptr_buf devarr) (Z.to_nat i) with
       | Some x => Ok x
       | None => Err out_of_bounds
       end.

(** [thrust::counting_iterator<size_type>(first)]: [it[i] = first + i]. *)
Definition make_counting_iterator (first : Z) : Z -> Z := fun i => first + i.

(** [std::vector::operator[]]: unchecked in C++. *)
Definition vector_at {A : Type} (v : list A) (i : nat) : result A :=
  match nth_error v i with
  | Some x => Ok x
  | None => Err out_of_bounds
  end.

(** [thrust::min_element(first, last, comp)] over the positions
    [0, n): the first position no other position is smaller than; [last]
    when the range is empty. *)
Fixpoint min_element_from (comp : nat -> nat -> bool) (smallest : nat) (rest : list nat) : nat :=
  match rest with
  | [] => smallest
  | i :: rest' => min_element_from comp (if comp i smallest then i else smallest) rest'
  end.

Definition min_element (comp : nat -> nat -> bool) (n : nat) : nat :=
  match seq 0 n with
  | [] => n
  | first :: rest => min_element_from comp first rest
  end.

(** [thrust::max_element(first, last, comp)]: the first position no other
    position is larger than. *)
Fixpoint max_element_from (comp : nat -> nat -> bool) (largest : nat) (rest : list nat) : nat :=
  match rest with
  | [] => largest
  | i :: rest' => max_element_from comp (if comp largest i then i else largest) rest'
  end.

Definition max_element (comp : nat -> nat -> bool) (n : nat) : nat :=
  match seq 0 n with
  | [] => n
  | first :: rest => max_element_from comp first rest
  end.

(** Stable insertion of a row position into a sorted list of positions. *)
Fixpoint insert_row (comp : nat -> nat -> bool) (i : nat) (l : list nat) : list nat :=
  match l with
  | [] => [i]
  | j :: l' => if comp j i then j :: insert_row comp i l' else i :: j :: l'
  end.

Section Quantiles.

(** The element type [T] of the templates, its conversion to [double]
    ([static_cast<double>]) and its [operator<]. *)
Variable T : Type.
Variable to_double : T -> double.
Variable less : T -> T -> bool.

(** The runtime type tags ([type_id] of cudf/types.hpp, which is not among
    the sources) and, for a tag, [std::is_arithmetic] of the element type
    the dispatcher instantiates the functor at: both are parameters. *)
Variable type_id : Type.
Variable is_arithmetic : type_id -> bool.

(** *** interpolate:: *)

(** Modelled from the spec: [interpolate::linear] of
    quantiles/legacy/quantiles_util.hpp, which is not among the sources.
    LINEAR is [a + fraction * (b - a)], computed in the output type. *)
Definition interpolate_linear (a b : T) (frac : double) : double :=
  (to_double a + frac * (to_double b - to_double a))%Q.

(** Modelled from the spec: [interpolate::midpoint] of
    quantiles/legacy/quantiles_util.hpp, which is not among the sources.
    MIDPOINT is [(a + b) / 2]. *)
Definition interpolate_midpoint (a b : T) : double :=
  ((to_double a + to_double b) / 2)%Q.

(** *** select_quantile *)

Definition select_quantile (begin : pointer T) (sortmap : Z -> Z) (size : Z)
    (quantile : double) (interp : interpolation) : result scalar :=
  if size <? 2 then
    (result_value <- get_array_value begin 0 ;;
     Ok (numeric_scalar (to_double result_value)))
  else
    let idx := quantile_index_ctor (size_type_wrap size) quantile in
    match interp with
    | LINEAR =>
        a <- get_array_value begin (sortmap (lower_bound idx)) ;;
        b <- get_array_value begin (sortmap (upper_bound idx)) ;;
        Ok (numeric_scalar (interpolate_linear a b (fraction idx)))
    | MIDPOINT =>
        a <- get_array_value begin (sortmap (lower_bound idx)) ;;
        b <- get_array_value begin (sortmap (upper_bound idx)) ;;
        Ok (numeric_scalar (interpolate_midpoint a b))
    | LOWER =>
        v <- get_array_value begin (sortmap (lower_bound idx)) ;;
        Ok (numeric_scalar (to_double v))
    | HIGHER =>
        v <- get_array_value begin (sortmap (upper_bound idx)) ;;
        Ok (numeric_scalar (to_double v))
    | NEAREST =>
        v <- get_array_value begin (sortmap (nearest idx)) ;;
        Ok (numeric_scalar (to_double v))
    end.

(** *** Columns and tables *)

(** A column view: the type tag, the data buffer (one slot per row, also
    for null rows) and the optional validity bitmap (bit set: valid). *)
Record column_view : Type := {
  col_type : type_id;
  col_data : list T;
  col_null_mask : option (list bool)
}.

Definition table_view : Type := list column_view.

Definition num_rows (c : column_view) : nat := length (col_data c).

Definition size (c : column_view) : Z := Z.of_nat (num_rows c).

Definition nullable (c : column_view) : bool :=
  match col_null_mask c with
  | Some _ => true
  | None => false
  end.

Definition is_valid_at (c : column_view) (i : nat) : bool :=
  match col_null_mask c with
  | Some m => nth i m true
  | None => true
  end.

Definition is_null (c : column_view) (i : nat) : bool := negb (is_valid_at c i).

(** The null count is derived from the bitmap. *)
Definition null_rows (c : column_view) : list nat :=
  filter (is_null c) (seq 0 (num_rows c)).

Definition null_count (c : column_view) : Z := Z.of_nat (length (null_rows c)).

Definition begin (c : column_view) : pointer T :=
  {| ptr_buf := col_data c; ptr_off := 0 |}.

(** *** The ordering of rows *)

(** Modelled from the spec: [row_lexicographic_comparator<nullable>] of
    cudf/table/row_operators.cuh, which is not among the sources, for the
    one-column tables this file builds.  Nulls compare as smallest under
    nulls-before and as largest under nulls-after; two nulls are
    equivalent; valid elements compare by [<] in the column's direction.
    With [has_nulls = false] the bitmap is not looked at. *)
Definition row_lexicographic_comparator (has_nulls : bool) (c : column_view)
    (o : order) (n : null_order) (lhs rhs : nat) : bool :=
  let lhs_is_null := has_nulls && is_null c lhs in
  let rhs_is_null := has_nulls && is_null c rhs in
  if lhs_is_null && rhs_is_null then false
  else if lhs_is_null then null_order_eqb n BEFORE
  else if rhs_is_null then null_order_eqb n AFTER
  else match nth_error (col_data c) lhs, nth_error (col_data c) rhs with
       | Some a, Some b =>
           match o with
           | ASCENDING => less a b
           | DESCENDING => less b a
           end
       | _, _ => false
       end.

(** Modelled from the spec: [sorted_order] of cudf/sorting.hpp, which is
    not among the sources.  The permutation of the row positions whose
    gather is the stably sorted column under the direction and the null
    placement. *)
Definition sorted_order (c : column_view) (o : order) (n : null_order) : list nat :=
  fold_right (insert_row (row_lexicographic_comparator true c o n)) []
             (seq 0 (num_rows c)).

(** Modelled from the spec: [gather] of cudf/copying.hpp, which is not
    among the sources.  A fresh column holding the rows of [c] in the
    order of the permutation. *)
Definition gather (c : column_view) (perm : list nat) : column_view :=
  {| col_type := col_type c;
     col_data := flat_map (fun i => match nth_error (col_data c) i with
                                    | Some x => [x]
                                    | None => []
                                    end) perm;
     col_null_mask := match col_null_mask c with
                      | Some _ => Some (map (is_valid_at c) perm)
                      | None => None
                      end |}.

(** *** extrema *)

Definition extrema (minmax : extrema_minmax) (has_nulls : bool) (in_ : column_view)
    (o : order) (n : null_order) : result scalar :=
  let comparator := row_lexicographic_comparator has_nulls in_ o n in
  let extrema_id :=
    match minmax with
    | extrema_min => min_element comparator (num_rows in_)
    | extrema_max => max_element comparator (num_rows in_)
    end in
  extrema_value <- get_array_value (begin in_) (Z.of_nat extrema_id) ;;
  Ok (numeric_scalar (to_double extrema_value)).

(** *** trampoline: the per-column driver *)

Definition trampoline (in_ : column_view) (quantile : double) (is_sorted : bool)
    (o : order) (n : null_order) (interp : interpolation) : result scalar :=
  if size in_ =? 1 then
    (r <- get_array_value (begin in_) 0 ;;
     Ok (numeric_scalar (to_double r)))
  else if negb is_sorted then
    if double_le quantile 0%Q then
      (if nullable in_
       then extrema extrema_min true in_ o n
       else extrema extrema_min false in_ o n)
    else if double_le 0%Q quantile then
      (if nullable in_
       then extrema extrema_max true in_ o n
       else extrema extrema_max false in_ o n)
    else
      let sorted_idx := sorted_order in_ o n in
      let sorted_col := gather in_ sorted_idx in
      let data_begin :=
        if null_order_eqb n AFTER
        then begin sorted_col
        else ptr_add (begin sorted_col) (null_count sorted_col) in
      select_quantile data_begin (make_counting_iterator 0)
                      (size_t_wrap (size in_ - null_count in_)) quantile interp
  else
    let data_begin :=
      if null_order_eqb n AFTER
      then begin in_
      else ptr_add (begin in_) (null_count in_) in
    select_quantile data_begin (make_counting_iterator 0)
                    (size_t_wrap (size in_ - null_count in_)) quantile interp.

(** *** trampoline_functor and the type dispatch *)

(** The two overloads of [trampoline_functor::operator()], selected by
    [std::is_arithmetic<T>]. *)
Definition trampoline_functor (arithmetic : bool) (in_ : column_view)
    (quantile : double) (is_sorted : bool) (o : order) (n : null_order)
    (interp : interpolation) : result scalar :=
  if arithmetic
  then trampoline in_ quantile is_sorted o n interp
  else Err unsupported_type.

Definition type_dispatcher (t : type_id) (in_ : column_view)
    (quantile : double) (is_sorted : bool) (o : order) (n : null_order)
    (interp : interpolation) : result scalar :=
  trampoline_functor (is_arithmetic t) in_ quantile is_sorted o n interp.

(** *** quantiles: the table-level entry point *)

(** The body of the loop for column [i]. *)
Definition quantiles_column (in_col : column_view) (i : nat) (quantile : double)
    (interp : interpolation) (is_sorted : bool)
    (orders : list order) (null_orders : list null_order) : result scalar :=
  if size in_col =? null_count in_col then
    Ok (numeric_scalar_with 0%Q false)
  else
    (o <- vector_at orders i ;;
     n <- vector_at null_orders i ;;
     type_dispatcher (col_type in_col) in_col quantile is_sorted o n interp).

(** The loop over the columns [i, num_columns). *)
Fixpoint quantiles_from (cols : list column_view) (i : nat) (quantile : double)
    (interp : interpolation) (is_sorted : bool)
    (orders : list order) (null_orders : list null_order) : result (list scalar) :=
  match cols with
  | [] => Ok []
  | in_col :: cols' =>
      out_i <- quantiles_column in_col i quantile interp is_sorted orders null_orders ;;
      out <- quantiles_from cols' (S i) quantile interp is_sorted orders null_orders ;;
      Ok (out_i :: out)
  end.

Definition quantiles (in_ : table_view) (quantile : double) (interp : interpolation)
    (is_sorted : bool) (orders : list order) (null_orders : list null_order)
    : result (list scalar) :=
  quantiles_from in_ 0 quantile interp is_sorted orders null_orders.

End Quantiles.

Arguments col_type {T type_id} c.
Arguments col_data {T type_id} c.
Arguments col_null_mask {T type_id} c.
Arguments Build_column_view {T type_id} col_type col_data col_null_mask.
Arguments num_rows {T type_id} c.
Arguments size {T type_id} c.
Arguments nullable {T type_id} c.
Arguments is_valid_at {T type_id} c i.
Arguments is_null {T type_id} c i.
Arguments null_rows {T type_id} c.
Arguments null_count {T type_id} c.
Arguments begin {T type_id} c.
Arguments gather {T type_id} c perm.
Arguments sorted_order {T} less {type_id} c o n.
Arguments row_lexicographic_comparator {T} less {type_id} has_nulls c o n lhs rhs.
Arguments select_quantile {T} to_double begin sortmap size quantile interp.
Arguments extrema {T} to_double less {type_id} minmax has_nulls in_ o n.
Arguments trampoline {T} to_double less {type_id} in_ quantile is_sorted o n interp.
Arguments quantiles_column {T} to_double less {type_id} is_arithmetic in_col i quantile
  interp is_sorted orders null_orders.
Arguments quantiles_from {T} to_double less {type_id} is_arithmetic cols i quantile
  interp is_sorted orders null_orders.
Arguments quantiles {T} to_double less {type_id} is_arithmetic in_ quantile
  interp is_sorted orders null_orders.

(** ** The states of the per-column driver *)

Inductive driver_state : Type :=
| SINGLE_ELEMENT
| BOUNDARY_QUANTILE (minmax : extrema_minmax)
| NEEDS_SORT
| ALREADY_SORTED.

(** The branch [trampoline] takes: its conditions, in its order. *)
Definition trampoline_state {T type_id : Type} (in_ : column_view T type_id)
    (quantile : double) (is_sorted : bool) : driver_state :=
  if size in_ =? 1 then SINGLE_ELEMENT
  else if negb is_sorted then
    if double_le quantile 0%Q then BOUNDARY_QUANTILE extrema_min
    else if double_le 0%Q quantile then BOUNDARY_QUANTILE extrema_max
    else NEEDS_SORT
  else ALREADY_SORTED.

Definition is_boundary (st : driver_state) : bool :=
  match st with
  | BOUNDARY_QUANTILE _ => true
  | _ => false
  end.

(** The valid window of a column laid out for the null placement [n]: the
    pointer the driver computes and the number of valid rows. *)
Definition valid_window_begin {T type_id : Type} (c : column_view T type_id)
    (n : null_order) : pointer T :=
  if null_order_eqb n AFTER then begin c else ptr_add (begin c) (null_count c).

(** What [trampoline] does in each state. *)
Definition run_state {T type_id : Type} (to_double : T -> double)
    (less : T -> T -> bool) (st : driver_state) (in_ : column_view T type_id)
    (quantile : double) (o : order) (n : null_order) (interp : interpolation)
    : result scalar :=
  match st with
  | SINGLE_ELEMENT =>
      r <- get_array_value (begin in_) 0 ;; Ok (numeric_scalar (to_double r))
  | BOUNDARY_QUANTILE minmax => extrema to_double less minmax (nullable in_) in_ o n
  | NEEDS_SORT =>
      select_quantile to_double
        (valid_window_begin (gather in_ (sorted_order less in_ o n)) n)
        (make_counting_iterator 0) (size_t_wrap (size in_ - null_count in_))
        quantile interp
  | ALREADY_SORTED =>
      select_quantile to_double (valid_window_begin in_ n)
        (make_counting_iterator 0) (size_t_wrap (size in_ - null_count in_))
        quantile interp
  end.

(** The rows of a column are all null. *)
Definition all_null {T type_id : Type} (c : column_view T type_id) : Prop :=
  forall i : nat, (i < num_rows c)%nat -> is_null c i = true.

(** The rows that hold a value. *)
Definition valid_rows {T type_id : Type} (c : column_view T type_id) : list nat :=
  filter (is_valid_at c) (seq 0 (num_rows c)).

(** The nulls of the column lie where the null placement [n] puts them in a
    sorted column: after every valid row, or before every valid row. *)
Definition nulls_placed {T type_id : Type} (c : column_view T type_id)
    (n : null_order) : bool :=
  forallb (fun i =>
    forallb (fun j =>
      implb (Nat.ltb i j)
            match n with
            | AFTER => implb (is_valid_at c j) (is_valid_at c i)
            | BEFORE => implb (is_valid_at c i) (is_valid_at c j)
            end)
      (seq 0 (num_rows c)))
    (seq 0 (num_rows c)).

(** The elements of the window of [size] elements at [p]. *)
Definition window {T : Type} (p : pointer T) (size : Z) : list T :=
  firstn (Z.to_nat size) (skipn (Z.to_nat (ptr_off p)) (ptr_buf p)).

(** The value the constructor takes floor, ceiling and nearest of. *)
Definition index_val (count : Z) (quantile : double) : double :=
  (std_min (std_max quantile 0%Q) 1%Q * inject_Z (count - 1))%Q.

(** The position a one-element mode reads. *)
Definition picked_index (interp : interpolation) (idx : quantile_index) : Z :=
  match interp with
  | HIGHER => upper_bound idx
  | NEAREST => nearest idx
  | _ => lower_bound idx
  end.

Definition reads_one_element (interp : interpolation) : bool :=
  match interp with
  | LOWER | HIGHER | NEAREST => true
  | LINEAR | MIDPOINT => false
  end.

(** The scalar of an entirely null column: [numeric_scalar<double>(0, false)]. *)
Definition zero_invalid : scalar := numeric_scalar_with 0%Q false.

(** What a result says about its column: it is invalid exactly when the
    column is entirely null, and it is then the zero-valued invalid scalar. *)
Definition invalid_iff_all_null {T type_id : Type} (c : column_view T type_id)
    (r : scalar) : Prop :=
  (is_valid r = false <-> all_null c) /\ (all_null c -> r = zero_invalid).

(** A call returned a valid scalar of value [v], a list of valid scalars of
    values [vs]; values are compared as rationals. *)
Definition returns_value (res : result scalar) (v : double) : Prop :=
  exists r : scalar, res = Ok r /\ is_valid r = true /\ (value r == v)%Q.

Definition returns_values (res : result (list scalar)) (vs : list double) : Prop :=
  exists rs : list scalar,
    res = Ok rs /\
    Forall2 (fun r v => is_valid r = true /\ (value r == v)%Q) rs vs.


(** The elements of the window are in nondecreasing order of their values
    as doubles: what a sorted column is to the modes that read it. *)
Definition window_nondecreasing {T : Type} (to_double : T -> double)
    (p : pointer T) (size : Z) : Prop :=
  StronglySorted (fun x y : T => (to_double x <= to_double y)%Q) (window p size).

(** An example instance: columns of integers, with one arithmetic and one
    non-arithmetic type tag. *)
Module Example.

Inductive tag : Type := INT32 | STRING.

Definition tag_is_arithmetic (t : tag) : bool :=
  match t with
  | INT32 => true
  | STRING => false
  end.

Definition column : Type := column_view Z tag.

Definition int32_column (data : list Z) : column :=
  Build_column_view INT32 data None.

Definition int32_column_nulls (data : list Z) (mask : list bool) : column :=
  Build_column_view INT32 data (Some mask).

Definition string_column_nulls (data : list Z) (mask : list bool) : column :=
  Build_column_view STRING data (Some mask).

Definition quantiles_int := quantiles inject_Z Z.ltb tag_is_arithmetic.
Definition trampoline_int := @trampoline Z inject_Z Z.ltb tag.

(** The column of the scenarios of the specification, and its sorted form. *)
Definition scenario : column := int32_column [3; 1; 4; 1; 5].
Definition scenario_sorted : column := int32_column [1; 1; 3; 4; 5].

(** A sorted column of three values. *)
Definition one_two_three : column := int32_column [1; 2; 3].

(** A column whose first row is null (its slot holds 7); the valid rows
    hold 1 and 2. *)
Definition null_first : column := int32_column_nulls [7; 1; 2] [false; true; true].

(** One valid row among nulls, laid out for nulls-after and for
    nulls-before. *)
Definition lone_after : column := int32_column_nulls [5; 0; 0] [true; false; false].
Definition lone_before : column := int32_column_nulls [0; 0; 5] [false; false; true].

(** A column of a non-arithmetic type whose rows are all null. *)
Definition nothing : column := string_column_nulls [0; 0] [false; false].

(** A nullable column of one valid row. *)
Definition singleton : column := int32_column_nulls [42] [true].



End Example.

(** * Properties *)

(** ** Machine integers and doubles *)

Lemma size_type_wrap_small (z : Z) :
  - 2 ^ 31 <= z < 2 ^ 31 -> size_type_wrap z = z.
Proof.
  intros Hz. unfold size_type_wrap.
  rewrite Z.mod_small by lia. lia.
Qed.

Lemma size_t_wrap_small (z : Z) :
  0 <= z < 2 ^ 64 -> size_t_wrap z = z.
Proof.
  intros Hz. unfold size_t_wrap. now rewrite Z.mod_small.
Qed.

Lemma double_le_spec (a b : double) : double_le a b = true <-> (a <= b)%Q.
Proof. apply Qle_bool_iff. Qed.

Lemma double_lt_spec (a b : double) : double_lt a b = true <-> (a < b)%Q.
Proof.
  unfold double_lt. rewrite negb_true_iff. split.
  - intros H. apply Qnot_le_lt. intros Hle.
    apply Qle_bool_iff in Hle. congruence.
  - intros H. destruct (Qle_bool b a) eqn:E; [|reflexivity].
    apply Qle_bool_iff in E. exfalso. now apply (Qlt_not_le a b).
Qed.

Lemma double_lt_false (a b : double) : double_lt a b = false <-> (b <= a)%Q.
Proof.
  unfold double_lt. rewrite negb_false_iff. apply Qle_bool_iff.
Qed.

(** The clamp of the constructor lands in [0, 1]. *)
Lemma clamp_range (q : double) :
  (0 <= std_min (std_max q 0%Q) 1%Q)%Q /\ (std_min (std_max q 0%Q) 1%Q <= 1)%Q.
Proof.
  unfold std_min, std_max.
  destruct (double_lt q 0%Q) eqn:E0.
  - destruct (double_lt 1%Q 0%Q) eqn:E1.
    + apply double_lt_spec in E1. discriminate.
    + split; [apply Qle_refl | discriminate].
  - apply double_lt_false in E0.
    destruct (double_lt 1%Q q) eqn:E1.
    + split; [discriminate | apply Qle_refl].
    + apply double_lt_false in E1. now split.
Qed.

Lemma double_trunc_integer (z : Z) : double_trunc (inject_Z z) = z.
Proof.
  unfold double_trunc.
  destruct (double_lt (inject_Z z) 0%Q); [apply Qceiling_Z | apply Qfloor_Z].
Qed.

(** Off the integers the ceiling is the floor plus one. *)
Lemma Qceiling_above_floor (v : Q) :
  (inject_Z (Qfloor v) < v)%Q -> Qceiling v = Qfloor v + 1.
Proof.
  intros Hlt.
  assert (H1 : Qfloor v < Qceiling v).
  { rewrite Zlt_Qlt. eapply Qlt_le_trans; [exact Hlt | apply Qle_ceiling]. }
  assert (H2 : Qceiling v - 1 < Qfloor v + 1).
  { rewrite Zlt_Qlt. eapply Qlt_trans; [apply Qceiling_lt | apply Qlt_floor]. }
  lia.
Qed.

Lemma Qceiling_le_floor_succ (v : Q) : Qceiling v <= Qfloor v + 1.
Proof.
  assert (H2 : Qceiling v - 1 < Qfloor v + 1).
  { rewrite Zlt_Qlt. eapply Qlt_trans; [apply Qceiling_lt | apply Qlt_floor]. }
  lia.
Qed.

(** [std::nearbyint] returns the floor or the ceiling. *)
Lemma std_nearbyint_cases (v : double) :
  std_nearbyint v = inject_Z (Qfloor v) \/ std_nearbyint v = inject_Z (Qceiling v).
Proof.
  unfold std_nearbyint.
  destruct (double_lt (v - inject_Z (Qfloor v))%Q (1 # 2)) eqn:E1; [now left|].
  apply double_lt_false in E1.
  assert (Hlt : (inject_Z (Qfloor v) < v)%Q).
  { apply (Qplus_lt_l _ _ (- inject_Z (Qfloor v))).
    rewrite Qplus_opp_r. eapply Qlt_le_trans; [|exact E1]. reflexivity. }
  rewrite <- (Qceiling_above_floor v Hlt).
  destruct (double_lt (1 # 2) (v - inject_Z (Qfloor v))%Q); [now right|].
  destruct (Z.even (Qfloor v)); [now left | now right].
Qed.

(** ** The quantile index *)

Lemma index_val_range (count : Z) (quantile : double) :
  1 <= count ->
  (0 <= index_val count quantile)%Q /\
  (index_val count quantile <= inject_Z (count - 1))%Q.
Proof.
  intros Hc. unfold index_val.
  destruct (clamp_range quantile) as [H0 H1].
  assert (Hn : (0 <= inject_Z (count - 1))%Q).
  { change 0%Q with (inject_Z 0). rewrite <- Zle_Qle. lia. }
  split.
  - now apply Qmult_le_0_compat.
  - rewrite <- (Qmult_1_l (inject_Z (count - 1))) at 2.
    now apply Qmult_le_compat_r.
Qed.

Lemma index_val_floor_ceiling (count : Z) (quantile : double) :
  1 <= count ->
  0 <= Qfloor (index_val count quantile) /\
  Qfloor (index_val count quantile) <= Qceiling (index_val count quantile) /\
  Qceiling (index_val count quantile) <= count - 1.
Proof.
  intros Hc. destruct (index_val_range count quantile Hc) as [H0 H1].
  repeat split.
  - apply (Qfloor_resp_le 0%Q) in H0. exact H0.
  - rewrite Zle_Qle. apply Qle_floor_ceiling.
  - apply Qceiling_resp_le in H1. now rewrite Qceiling_Z in H1.
Qed.

(** Within the range of [size_type] no conversion of the constructor wraps:
    its fields are the floor, the ceiling and the rounding of the value. *)
Lemma quantile_index_fields (count : Z) (quantile : double) :
  1 <= count <= size_type_max ->
  let v := index_val count quantile in
  let idx := quantile_index_ctor count quantile in
  lower_bound idx = Qfloor v /\
  upper_bound idx = Qceiling v /\
  (nearest idx = Qfloor v \/ nearest idx = Qceiling v) /\
  fraction idx = (v - inject_Z (Qfloor v))%Q.
Proof.
  intros [Hc1 Hc2] v idx. unfold size_type_max in Hc2.
  destruct (index_val_floor_ceiling count quantile Hc1) as (Hf & Hfc & Hcl).
  fold v in Hf, Hfc, Hcl.
  assert (Hfloor : size_type_of_double (std_floor v) = Qfloor v).
  { unfold size_type_of_double, std_floor. rewrite double_trunc_integer.
    apply size_type_wrap_small. lia. }
  assert (Hconv : forall z, 0 <= z <= count - 1 ->
            size_type_wrap (size_t_of_double (inject_Z z)) = z).
  { intros z Hz. unfold size_t_of_double. rewrite double_trunc_integer.
    rewrite size_t_wrap_small by lia. apply size_type_wrap_small. lia. }
  unfold idx, quantile_index_ctor, lower_bound, upper_bound, nearest, fraction,
    std_ceil, double_of_size_type.
  rewrite (size_type_wrap_small (count - 1)) by lia.
  fold (index_val count quantile). fold v. rewrite Hfloor.
  repeat split.
  - apply Hconv. lia.
  - destruct (std_nearbyint_cases v) as [E | E]; rewrite E;
      [left | right]; apply Hconv; lia.
Qed.

Lemma quantile_index_bounds (count : Z) (quantile : double) :
  1 <= count <= size_type_max ->
  let idx := quantile_index_ctor count quantile in
  0 <= lower_bound idx /\
  lower_bound idx <= nearest idx /\
  nearest idx <= upper_bound idx /\
  upper_bound idx < count /\
  upper_bound idx <= lower_bound idx + 1 /\
  (0 <= fraction idx)%Q /\
  (fraction idx < 1)%Q.
Proof.
  intros Hc idx.
  destruct (quantile_index_fields count quantile Hc) as (Hl & Hu & Hn & Hfr).
  fold idx in Hl, Hu, Hn, Hfr.
  destruct (index_val_floor_ceiling count quantile (proj1 Hc)) as (Hf & Hfc & Hcl).
  pose proof (Qceiling_le_floor_succ (index_val count quantile)) as Hsucc.
  rewrite Hl, Hu, Hfr.
  repeat split; try lia.
  - rewrite <- (Qplus_opp_r (inject_Z (Qfloor (index_val count quantile)))).
    apply Qplus_le_l. apply Qfloor_le.
  - set (v := index_val count quantile).
    apply (Qplus_lt_l _ _ (inject_Z (Qfloor v))).
    setoid_replace (v - inject_Z (Qfloor v) + inject_Z (Qfloor v))%Q with v by ring.
    setoid_replace (1 + inject_Z (Qfloor v))%Q with (inject_Z (Qfloor v + 1))
      by (rewrite inject_Z_plus; ring).
    apply Qlt_floor.
Qed.

(** ** Reading elements *)

Lemma get_array_value_at {T : Type} (buf : list T) (off i : Z) (x : T) :
  0 <= off + i ->
  nth_error buf (Z.to_nat (off + i)) = Some x ->
  get_array_value {| ptr_buf := buf; ptr_off := off |} i = Ok x.
Proof.
  intros Hpos Hx. unfold get_array_value. simpl.
  destruct (Z.ltb_spec (off + i) 0); [lia|]. now rewrite Hx.
Qed.

(** A read inside the window succeeds and returns an element of it. *)
Lemma get_array_value_window {T : Type} (p : pointer T) (size i : Z) :
  0 <= ptr_off p ->
  ptr_off p + size <= Z.of_nat (length (ptr_buf p)) ->
  0 <= i < size ->
  exists x : T, get_array_value p i = Ok x /\ In x (window p size).
Proof.
  intros Hoff Hfit Hi. destruct p as [buf off]. simpl in *.
  destruct (nth_error buf (Z.to_nat (off + i))) as [x|] eqn:Ex.
  - exists x. split.
    + apply get_array_value_at; [lia | exact Ex].
    + unfold window. simpl.
      apply (nth_error_In _ (Z.to_nat i)).
      rewrite nth_error_firstn.
      destruct (Nat.ltb_spec (Z.to_nat i) (Z.to_nat size)); [|lia].
      rewrite nth_error_skipn.
      replace (Z.to_nat off + Z.to_nat i)%nat with (Z.to_nat (off + i)) by lia.
      exact Ex.
  - apply nth_error_None in Ex. lia.
Qed.

Lemma window_incl {T : Type} (p : pointer T) (size : Z) :
  incl (window p size) (ptr_buf p).
Proof.
  intros x Hx. unfold window in Hx.
  rewrite <- (firstn_skipn (Z.to_nat (ptr_off p)) (ptr_buf p)).
  apply in_or_app. right.
  rewrite <- (firstn_skipn (Z.to_nat size) (skipn (Z.to_nat (ptr_off p)) (ptr_buf p))).
  apply in_or_app. now left.
Qed.

(** ** select_quantile *)

Section SelectQuantile.

Context {T : Type} (to_double : T -> double).

(** Below two elements the index is not built: the first element of the
    window is the result, whatever the quantile and the mode. *)
Lemma select_quantile_short_circuit (p : pointer T) (sortmap : Z -> Z)
    (size : Z) (quantile : double) (interp : interpolation) :
  size < 2 ->
  select_quantile to_double p sortmap size quantile interp =
  (r <- get_array_value p 0 ;; Ok (numeric_scalar (to_double r))).
Proof.
  intros Hs. unfold select_quantile.
  destruct (Z.ltb_spec size 2); [reflexivity | lia].
Qed.

Lemma select_quantile_picks (p : pointer T) (size : Z) (quantile : double)
    (interp : interpolation) :
  1 <= size <= size_type_max ->
  reads_one_element interp = true ->
  select_quantile to_double p (make_counting_iterator 0) size quantile interp =
  (v <- get_array_value p (picked_index interp (quantile_index_ctor size quantile)) ;;
   Ok (numeric_scalar (to_double v))).
Proof.
  intros Hs Hone.
  pose proof (quantile_index_bounds size quantile Hs) as Hb. cbv zeta in Hb.
  unfold select_quantile. destruct (Z.ltb_spec size 2) as [Hlt | Hge].
  - assert (Hz : picked_index interp (quantile_index_ctor size quantile) = 0).
    { destruct interp; unfold picked_index; lia. }
    now rewrite Hz.
  - unfold size_type_max in Hs.
    rewrite (size_type_wrap_small size) by lia.
    unfold make_counting_iterator.
    destruct interp; try discriminate; unfold picked_index;
      now rewrite Z.add_0_l.
Qed.

Lemma select_quantile_element (p : pointer T) (size : Z) (quantile : double)
    (interp : interpolation) :
  0 <= ptr_off p ->
  1 <= size <= size_type_max ->
  ptr_off p + size <= Z.of_nat (length (ptr_buf p)) ->
  reads_one_element interp = true ->
  exists x : T,
    get_array_value p (picked_index interp (quantile_index_ctor size quantile)) = Ok x /\
    In x (window p size) /\
    select_quantile to_double p (make_counting_iterator 0) size quantile interp =
    Ok (numeric_scalar (to_double x)).
Proof.
  intros Hoff Hs Hfit Hone.
  pose proof (quantile_index_bounds size quantile Hs) as Hb. cbv zeta in Hb.
  assert (Hi : 0 <= picked_index interp (quantile_index_ctor size quantile) < size).
  { destruct interp; unfold picked_index; lia. }
  destruct (get_array_value_window p size _ Hoff Hfit Hi) as (x & Hget & Hin).
  exists x. repeat split; try assumption.
  rewrite select_quantile_picks by assumption. now rewrite Hget.
Qed.

End SelectQuantile.

(** C8: for every count of at least one element (a [size_type]) and every
    quantile, the index built by [quantile_index] has
    [0 <= lower_bound <= upper_bound < count] and a fraction in [0, 1), the
    quantile being clamped to [0, 1] first; and for a count of one the
    callers return the element read at position 0 without the index:
    [select_quantile] for every sort map and mode, [trampoline] for every
    column of size one. *)
Theorem quantile_index_invariant (count : Z) (quantile : double) :
  1 <= count <= size_type_max ->
  (let idx := quantile_index_ctor count quantile in
   0 <= lower_bound idx /\
   lower_bound idx <= upper_bound idx /\
   upper_bound idx < count /\
   (0 <= fraction idx)%Q /\
   (fraction idx < 1)%Q) /\
  (forall (T : Type) (to_double : T -> double) (p : pointer T)
          (sortmap : Z -> Z) (interp : interpolation),
      count = 1 ->
      select_quantile to_double p sortmap count quantile interp =
      (r <- get_array_value p 0 ;; Ok (numeric_scalar (to_double r)))) /\
  (forall (T type_id : Type) (to_double : T -> double) (less : T -> T -> bool)
          (c : column_view T type_id) (is_sorted : bool) (o : order)
          (n : null_order) (interp : interpolation),
      size c = count -> count = 1 ->
      trampoline to_double less c quantile is_sorted o n interp =
      (r <- get_array_value (begin c) 0 ;; Ok (numeric_scalar (to_double r)))).
Proof.
  intros Hc. split; [|split].
  - pose proof (quantile_index_bounds count quantile Hc) as Hb. cbv zeta in *.
    repeat split; try tauto; lia.
  - intros T to_double p sortmap interp H1.
    apply select_quantile_short_circuit. lia.
  - intros T type_id to_double less c is_sorted o n interp Hsz H1.
    unfold trampoline. rewrite Hsz, H1. reflexivity.
Qed.

Lemma quantile_index_invariant_witness :
  1 <= 5 <= size_type_max /\
  (let idx := quantile_index_ctor 5 (3 # 5) in
   0 <= lower_bound idx /\
   lower_bound idx <= upper_bound idx /\
   upper_bound idx < 5 /\
   (0 <= fraction idx)%Q /\
   (fraction idx < 1)%Q).
Proof.
  assert (H : 1 <= 5 <= size_type_max) by (unfold size_type_max; lia).
  split; [exact H|].
  exact (proj1 (quantile_index_invariant 5 (3 # 5) H)).
Defined.

(** C7: over a window of [size] elements inside the buffer, LOWER and HIGHER
    return an element of the window (the one at [lower_bound], at
    [upper_bound]), never an interpolated value; NEAREST returns the element
    at [nearest], and [nearest] is within one position of [lower_bound] and
    of [upper_bound]. *)
Theorem one_element_modes_return_elements {T : Type} (to_double : T -> double)
    (p : pointer T) (size : Z) (quantile : double) :
  0 <= ptr_off p ->
  1 <= size <= size_type_max ->
  ptr_off p + size <= Z.of_nat (length (ptr_buf p)) ->
  let idx := quantile_index_ctor size quantile in
  let sortmap := make_counting_iterator 0 in
  (exists a : T,
      get_array_value p (lower_bound idx) = Ok a /\ In a (window p size) /\
      select_quantile to_double p sortmap size quantile LOWER =
      Ok (numeric_scalar (to_double a))) /\
  (exists b : T,
      get_array_value p (upper_bound idx) = Ok b /\ In b (window p size) /\
      select_quantile to_double p sortmap size quantile HIGHER =
      Ok (numeric_scalar (to_double b))) /\
  (exists c : T,
      get_array_value p (nearest idx) = Ok c /\ In c (window p size) /\
      select_quantile to_double p sortmap size quantile NEAREST =
      Ok (numeric_scalar (to_double c))) /\
  Z.abs (nearest idx - lower_bound idx) <= 1 /\
  Z.abs (nearest idx - upper_bound idx) <= 1.
Proof.
  intros Hoff Hs Hfit idx sortmap.
  pose proof (quantile_index_bounds size quantile Hs) as Hb. cbv zeta in Hb.
  fold idx in Hb.
  repeat split; try lia.
  - apply (select_quantile_element to_double p size quantile LOWER); auto.
  - apply (select_quantile_element to_double p size quantile HIGHER); auto.
  - apply (select_quantile_element to_double p size quantile NEAREST); auto.
Qed.

Lemma one_element_modes_return_elements_witness :
  let p := {| ptr_buf := [1; 1; 3; 4; 5]; ptr_off := 0 |} in
  (0 <= ptr_off p /\ 1 <= 5 <= size_type_max /\
   ptr_off p + 5 <= Z.of_nat (length (ptr_buf p))) /\
  exists a : Z,
    In a (window p 5) /\
    select_quantile inject_Z p (make_counting_iterator 0) 5 (3 # 5) LOWER =
    Ok (numeric_scalar (inject_Z a)).
Proof.
  intros p.
  assert (H : 0 <= ptr_off p /\ 1 <= 5 <= size_type_max /\
              ptr_off p + 5 <= Z.of_nat (length (ptr_buf p))).
  { unfold size_type_max. simpl. lia. }
  split; [exact H|].
  destruct H as (H1 & H2 & H3).
  destruct (one_element_modes_return_elements inject_Z p 5 (3 # 5) H1 H2 H3)
    as [(a & _ & Hin & Hsel) _].
  exists a. split; assumption.
Defined.

(** ** Null counts *)

Section Columns.

Context {T type_id : Type}.
Implicit Type c : column_view T type_id.

Lemma null_count_all_null c : (size c =? null_count c) = true <-> all_null c.
Proof.
  unfold size, null_count, null_rows, all_null. rewrite Z.eqb_eq. split.
  - intros H i Hi. apply Nat2Z.inj in H.
    rewrite <- (length_seq (num_rows c) 0) in H at 1. symmetry in H.
    apply filter_length_forallb in H.
    rewrite forallb_forall in H. apply H. apply in_seq. lia.
  - intros H. f_equal.
    rewrite forallb_filter_id; [now rewrite length_seq|].
    apply forallb_forall. intros i Hi. apply in_seq in Hi. apply H. lia.
Qed.

Lemma null_count_not_all_null c : (size c =? null_count c) = false <-> ~ all_null c.
Proof.
  rewrite <- null_count_all_null. now destruct (size c =? null_count c).
Qed.

(** Null rows and valid rows split the rows. *)
Lemma null_valid_rows_length c :
  (length (null_rows c) + length (valid_rows c) = num_rows c)%nat.
Proof.
  unfold null_rows, valid_rows, is_null.
  rewrite <- (length_seq (num_rows c) 0) at 3.
  induction (seq 0 (num_rows c)) as [|i l IH]; [reflexivity|].
  simpl. destruct (is_valid_at c i); simpl; lia.
Qed.

Lemma valid_rows_spec c (i : nat) :
  In i (valid_rows c) <-> (i < num_rows c)%nat /\ is_valid_at c i = true.
Proof.
  unfold valid_rows. rewrite filter_In, in_seq. intuition lia.
Qed.

Lemma nulls_placed_after c (i j : nat) :
  nulls_placed c AFTER = true ->
  (i < j < num_rows c)%nat ->
  is_valid_at c j = true -> is_valid_at c i = true.
Proof.
  unfold nulls_placed. intros H Hij Hj.
  rewrite forallb_forall in H.
  assert (Hi : In i (seq 0 (num_rows c))) by (apply in_seq; lia).
  specialize (H i Hi). rewrite forallb_forall in H.
  assert (Hj' : In j (seq 0 (num_rows c))) by (apply in_seq; lia).
  specialize (H j Hj'). rewrite Hj in H.
  destruct (Nat.ltb_spec i j); [|lia].
  now destruct (is_valid_at c i).
Qed.

Lemma nulls_placed_before c (i j : nat) :
  nulls_placed c BEFORE = true ->
  (i < j < num_rows c)%nat ->
  is_valid_at c i = true -> is_valid_at c j = true.
Proof.
  unfold nulls_placed. intros H Hij Hv.
  rewrite forallb_forall in H.
  assert (Hi : In i (seq 0 (num_rows c))) by (apply in_seq; lia).
  specialize (H i Hi). rewrite forallb_forall in H.
  assert (Hj' : In j (seq 0 (num_rows c))) by (apply in_seq; lia).
  specialize (H j Hj'). rewrite Hv in H.
  destruct (Nat.ltb_spec i j); [|lia].
  now destruct (is_valid_at c j).
Qed.

End Columns.

(** ** The per-column driver *)

Section Driver.

Context {T type_id : Type}.
Variable to_double : T -> double.
Variable less : T -> T -> bool.
Variable is_arithmetic : type_id -> bool.
Implicit Type c : column_view T type_id.

(** [trampoline] is its branch followed by what the branch does. *)
Lemma trampoline_run_state c (quantile : double) (is_sorted : bool)
    (o : order) (n : null_order) (interp : interpolation) :
  trampoline to_double less c quantile is_sorted o n interp =
  run_state to_double less (trampoline_state c quantile is_sorted) c quantile o n interp.
Proof.
  unfold trampoline, trampoline_state, run_state, valid_window_begin.
  destruct (size c =? 1); [reflexivity|].
  destruct is_sorted; simpl; [reflexivity|].
  destruct (double_le quantile 0%Q); [now destruct (nullable c)|].
  destruct (double_le 0%Q quantile); [now destruct (nullable c)|].
  reflexivity.
Qed.

(** The quantile is at most 0 or at least 0: the third branch of the
    unsorted case is never taken. *)
Lemma needs_sort_unreachable c (quantile : double) (is_sorted : bool) :
  trampoline_state c quantile is_sorted <> NEEDS_SORT.
Proof.
  unfold trampoline_state.
  destruct (size c =? 1); [discriminate|].
  destruct (negb is_sorted); [|discriminate].
  destruct (double_le quantile 0%Q) eqn:E1; [discriminate|].
  destruct (double_le 0%Q quantile) eqn:E2; [discriminate|].
  exfalso. unfold double_le in E1, E2.
  destruct (Qlt_le_dec 0%Q quantile) as [Hlt | Hle].
  - apply Qlt_le_weak in Hlt. apply Qle_bool_iff in Hlt. congruence.
  - apply Qle_bool_iff in Hle. congruence.
Qed.

(** An unsorted column of another size than one and a positive quantile:
    the driver takes the maximum. *)
Lemma unsorted_positive_quantile_state c (quantile : double) :
  size c <> 1 -> (0 < quantile)%Q ->
  trampoline_state c quantile false = BOUNDARY_QUANTILE extrema_max.
Proof.
  intros Hs Hq. unfold trampoline_state.
  destruct (Z.eqb_spec (size c) 1); [contradiction|]. simpl.
  destruct (double_le quantile 0%Q) eqn:E1.
  - apply double_le_spec in E1. exfalso. now apply (Qlt_not_le 0%Q quantile).
  - apply Qlt_le_weak in Hq. apply double_le_spec in Hq. now rewrite Hq.
Qed.

Lemma select_quantile_valid (p : pointer T) (sortmap : Z -> Z) (sz : Z)
    (quantile : double) (interp : interpolation) (r : scalar) :
  select_quantile to_double p sortmap sz quantile interp = Ok r ->
  is_valid r = true.
Proof.
  unfold select_quantile, bind. intros H.
  repeat match type of H with
         | (if ?b then _ else _) = _ => destruct b
         | match ?i with LINEAR => _ | _ => _ end = _ => destruct i
         | match ?g with Ok _ => _ | Err _ => _ end = _ => destruct g
         end;
    try discriminate; now inversion H.
Qed.

Lemma extrema_valid (minmax : extrema_minmax) (has_nulls : bool) c
    (o : order) (n : null_order) (r : scalar) :
  extrema to_double less minmax has_nulls c o n = Ok r -> is_valid r = true.
Proof.
  unfold extrema, bind. intros H.
  destruct (get_array_value _ _); [now inversion H | discriminate].
Qed.

(** Every scalar the driver returns is marked valid. *)
Lemma trampoline_valid c (quantile : double) (is_sorted : bool)
    (o : order) (n : null_order) (interp : interpolation) (r : scalar) :
  trampoline to_double less c quantile is_sorted o n interp = Ok r ->
  is_valid r = true.
Proof.
  rewrite trampoline_run_state.
  destruct (trampoline_state c quantile is_sorted); simpl.
  - unfold bind. destruct (get_array_value _ _); [|discriminate].
    intros H. now inversion H.
  - apply extrema_valid.
  - apply select_quantile_valid.
  - apply select_quantile_valid.
Qed.

Lemma get_array_value_In (p : pointer T) (i : Z) (x : T) :
  get_array_value p i = Ok x -> In x (ptr_buf p).
Proof.
  unfold get_array_value.
  destruct (ptr_off p + i <? 0); [discriminate|].
  destruct (nth_error (ptr_buf p) (Z.to_nat (ptr_off p + i))) as [y|] eqn:E;
    [|discriminate].
  intros H. inversion H. subst y. now apply nth_error_In in E.
Qed.

Lemma select_quantile_one_element (p : pointer T) (sortmap : Z -> Z) (sz : Z)
    (quantile : double) (interp : interpolation) (r : scalar) :
  reads_one_element interp = true ->
  select_quantile to_double p sortmap sz quantile interp = Ok r ->
  exists x : T, In x (ptr_buf p) /\ r = numeric_scalar (to_double x).
Proof.
  intros Hone. unfold select_quantile.
  destruct (sz <? 2); [|destruct interp; try discriminate];
    match goal with
    | |- bind (get_array_value p ?i) _ = _ -> _ =>
        destruct (get_array_value p i) as [x|] eqn:E; [|discriminate]
    end;
    simpl; intros H; inversion H; exists x;
    (split; [now apply get_array_value_In in E | reflexivity]).
Qed.

(** In the modes that read one element, whatever the driver returns is an
    element of the data of the column, converted to double. *)
Lemma trampoline_one_element_modes c (quantile : double) (is_sorted : bool)
    (o : order) (n : null_order) (interp : interpolation) (r : scalar) :
  reads_one_element interp = true ->
  trampoline to_double less c quantile is_sorted o n interp = Ok r ->
  exists x : T, In x (col_data c) /\ r = numeric_scalar (to_double x).
Proof.
  intros Hone. rewrite trampoline_run_state.
  pose proof (needs_sort_unreachable c quantile is_sorted) as Hno.
  destruct (trampoline_state c quantile is_sorted); simpl.
  - destruct (get_array_value (begin c) 0) as [x|] eqn:E; [|discriminate].
    simpl. intros H. inversion H. exists x.
    split; [now apply get_array_value_In in E | reflexivity].
  - unfold extrema.
    match goal with
    | |- bind (get_array_value ?p ?i) _ = _ -> _ =>
        destruct (get_array_value p i) as [x|] eqn:E; [|discriminate]
    end.
    simpl. intros H. inversion H. exists x.
    split; [now apply get_array_value_In in E | reflexivity].
  - contradiction.
  - intros H. apply (select_quantile_one_element _ _ _ _ _ _ Hone) in H.
    unfold valid_window_begin in H. now destruct (null_order_eqb n AFTER).
Qed.

(** *** The loop body *)

Lemma quantiles_column_all_null c (i : nat) (quantile : double)
    (interp : interpolation) (is_sorted : bool)
    (orders : list order) (null_orders : list null_order) :
  all_null c ->
  quantiles_column to_double less is_arithmetic c i quantile interp is_sorted
                   orders null_orders = Ok zero_invalid.
Proof.
  intros H. apply null_count_all_null in H.
  unfold quantiles_column. now rewrite H.
Qed.

Lemma quantiles_column_valid_iff c (i : nat) (quantile : double)
    (interp : interpolation) (is_sorted : bool)
    (orders : list order) (null_orders : list null_order) (r : scalar) :
  quantiles_column to_double less is_arithmetic c i quantile interp is_sorted
                   orders null_orders = Ok r ->
  (is_valid r = false <-> all_null c) /\ (all_null c -> r = zero_invalid).
Proof.
  unfold quantiles_column.
  destruct (size c =? null_count c) eqn:E.
  - apply null_count_all_null in E. intros H. inversion H. now split.
  - apply null_count_not_all_null in E. unfold bind.
    destruct (vector_at orders i); [|discriminate].
    destruct (vector_at null_orders i); [|discriminate].
    unfold type_dispatcher, trampoline_functor.
    destruct (is_arithmetic (col_type c)); [|discriminate].
    intros H. apply trampoline_valid in H. rewrite H.
    split; [split|]; intros; [discriminate | contradiction | contradiction].
Qed.

(** The loop reads the vectors only at the positions of the columns. *)
Lemma quantiles_from_ext (cols : list (column_view T type_id)) :
  forall (i : nat) (quantile : double) (interp : interpolation) (is_sorted : bool)
         (orders orders' : list order) (null_orders null_orders' : list null_order),
    (forall j : nat, (i <= j < i + length cols)%nat ->
                     nth_error orders j = nth_error orders' j /\
                     nth_error null_orders j = nth_error null_orders' j) ->
    quantiles_from to_double less is_arithmetic cols i quantile interp is_sorted
                   orders null_orders =
    quantiles_from to_double less is_arithmetic cols i quantile interp is_sorted
                   orders' null_orders'.
Proof.
  induction cols as [|c cols IH]; intros i quantile interp is_sorted
    orders orders' null_orders null_orders' Hagree; [reflexivity|].
  simpl in *.
  destruct (Hagree i ltac:(lia)) as [Ho Hn].
  rewrite (IH (S i) quantile interp is_sorted orders orders' null_orders null_orders')
    by (intros j Hj; apply Hagree; lia).
  unfold quantiles_column, vector_at. now rewrite Ho, Hn.
Qed.

End Driver.

(** ** The table-level entry point *)

Section Table.

Context {T type_id : Type}.
Variable to_double : T -> double.
Variable less : T -> T -> bool.
Variable is_arithmetic : type_id -> bool.
Implicit Type c : column_view T type_id.
Implicit Type tbl : list (column_view T type_id).

Lemma quantiles_from_invalid_iff tbl :
  forall (i : nat) (quantile : double) (interp : interpolation) (is_sorted : bool)
         (orders : list order) (null_orders : list null_order) (out : list scalar),
    quantiles_from to_double less is_arithmetic tbl i quantile interp is_sorted
                   orders null_orders = Ok out ->
    Forall2 invalid_iff_all_null tbl out.
Proof.
  induction tbl as [|c tbl IH]; intros i quantile interp is_sorted orders
    null_orders out H; simpl in H.
  - inversion H. constructor.
  - destruct (quantiles_column to_double less is_arithmetic c i quantile interp
                is_sorted orders null_orders) as [r|] eqn:Ec; [|discriminate].
    simpl in H.
    destruct (quantiles_from to_double less is_arithmetic tbl (S i) quantile
                interp is_sorted orders null_orders) as [rs|] eqn:Er;
      [|discriminate].
    simpl in H. inversion H. subst out. constructor.
    + now apply quantiles_column_valid_iff in Ec.
    + now apply (IH _ _ _ _ _ _ _ Er).
Qed.

(** C6: in the results of a call, a scalar is invalid exactly when its
    column is entirely null, and it is then the zero-valued invalid scalar;
    and the loop body returns that scalar for an entirely null column
    whatever the quantile, the mode, the sortedness flag, the position,
    the type tag of the column and the order vectors are: neither the type
    dispatch (which fails on some tags) nor the driver is reached. *)
Theorem invalid_exactly_when_all_null tbl c (i : nat) (quantile : double)
    (interp : interpolation) (is_sorted : bool)
    (orders : list order) (null_orders : list null_order) (out : list scalar) :
  (quantiles to_double less is_arithmetic tbl quantile interp is_sorted
             orders null_orders = Ok out ->
   Forall2 invalid_iff_all_null tbl out) /\
  (all_null c ->
   quantiles_column to_double less is_arithmetic c i quantile interp is_sorted
                    orders null_orders = Ok zero_invalid).
Proof.
  split.
  - apply quantiles_from_invalid_iff.
  - apply quantiles_column_all_null.
Qed.

(** C5: a column of one row that is not null, of an arithmetic type: the
    result of the call is that element converted to double, for every
    quantile, mode, sortedness flag, order and null placement; the driver
    returns it for every column of size one. *)
Theorem single_element_column c (x : T) (quantile : double)
    (interp : interpolation) (is_sorted : bool) (o : order) (n : null_order) :
  col_data c = [x] ->
  is_null c 0 = false ->
  is_arithmetic (col_type c) = true ->
  trampoline to_double less c quantile is_sorted o n interp =
  Ok (numeric_scalar (to_double x)) /\
  quantiles to_double less is_arithmetic [c] quantile interp is_sorted [o] [n] =
  Ok [numeric_scalar (to_double x)].
Proof.
  intros Hdata Hnull Harith.
  assert (Htr : trampoline to_double less c quantile is_sorted o n interp =
                Ok (numeric_scalar (to_double x))).
  { unfold trampoline, size, num_rows, begin, get_array_value.
    rewrite Hdata. reflexivity. }
  split; [exact Htr|].
  unfold quantiles, quantiles_from, quantiles_column.
  assert (Hcount : (size c =? null_count c) = false).
  { unfold size, null_count, null_rows, num_rows. rewrite Hdata. simpl.
    now rewrite Hnull. }
  rewrite Hcount. simpl.
  unfold type_dispatcher, trampoline_functor. rewrite Harith, Htr. reflexivity.
Qed.

(** C9, as the code has it: the lengths of the order vectors are not
    checked; the call reads them at the positions of the columns only, so
    it returns what it returns on the vectors cut to the column count. *)
Theorem order_vectors_read_up_to_column_count tbl (quantile : double)
    (interp : interpolation) (is_sorted : bool)
    (orders : list order) (null_orders : list null_order) :
  quantiles to_double less is_arithmetic tbl quantile interp is_sorted
            orders null_orders =
  quantiles to_double less is_arithmetic tbl quantile interp is_sorted
            (firstn (length tbl) orders) (firstn (length tbl) null_orders).
Proof.
  unfold quantiles. apply quantiles_from_ext. intros j Hj.
  rewrite !nth_error_firstn.
  destruct (Nat.ltb_spec j (length tbl)); [now split | lia].
Qed.

End Table.

(** ** A sorted column with one valid row *)

Section LoneValid.

Context {T type_id : Type}.
Variable to_double : T -> double.
Variable less : T -> T -> bool.
Implicit Type c : column_view T type_id.

Lemma lone_valid_null_count c (k : nat) :
  valid_rows c = [k] -> null_count c = size c - 1.
Proof.
  intros Hv. pose proof (null_valid_rows_length c) as Hlen.
  rewrite Hv in Hlen. simpl in Hlen. unfold null_count, size. lia.
Qed.

Lemma lone_valid_position c (k : nat) (n : null_order) :
  valid_rows c = [k] ->
  nulls_placed c n = true ->
  k = match n with
      | AFTER => 0%nat
      | BEFORE => (num_rows c - 1)%nat
      end.
Proof.
  intros Hv Hp.
  assert (Hk : In k (valid_rows c)) by (rewrite Hv; now left).
  apply valid_rows_spec in Hk. destruct Hk as [Hlt Hvalid].
  assert (Honly : forall i, (i < num_rows c)%nat -> is_valid_at c i = true -> i = k).
  { intros i Hi Hvi.
    assert (Hin : In i (valid_rows c)) by now apply valid_rows_spec.
    rewrite Hv in Hin. destruct Hin as [E | []]. now symmetry. }
  destruct n.
  - destruct (Nat.eq_dec k 0) as [E | Hne]; [exact E|].
    symmetry. apply Honly; [lia|].
    apply (nulls_placed_after c 0 k Hp); [lia | exact Hvalid].
  - destruct (Nat.eq_dec k (num_rows c - 1)) as [E | Hne]; [exact E|].
    symmetry. apply Honly; [lia|].
    apply (nulls_placed_before c k (num_rows c - 1) Hp); [lia | exact Hvalid].
Qed.

(** C10: a column of at least two rows exactly one of which, row [k]
    holding [x], is not null, its nulls lying where the null placement puts
    them as the caller asserts with [is_sorted = true]: the valid count
    [size - null_count] is 1, the pointer of the valid window is at the
    valid element, and the driver returns that element converted to double
    for every quantile, mode and order. *)
Theorem lone_valid_element_sorted c (k : nat) (x : T) (quantile : double)
    (interp : interpolation) (o : order) (n : null_order) :
  2 <= size c ->
  valid_rows c = [k] ->
  nth_error (col_data c) k = Some x ->
  nulls_placed c n = true ->
  size c - null_count c = 1 /\
  get_array_value (valid_window_begin c n) 0 = Ok x /\
  trampoline to_double less c quantile true o n interp =
  Ok (numeric_scalar (to_double x)).
Proof.
  intros Hsize Hv Hx Hp.
  pose proof (lone_valid_null_count c k Hv) as Hnc.
  pose proof (lone_valid_position c k n Hv Hp) as Hk.
  assert (Hone : size c - null_count c = 1) by lia.
  assert (Hread : get_array_value (valid_window_begin c n) 0 = Ok x).
  { unfold valid_window_begin, begin, ptr_add. destruct n; simpl.
    - apply get_array_value_at; [lia|]. subst k. exact Hx.
    - apply get_array_value_at; [lia|].
      match goal with
      | |- nth_error _ ?i = _ => replace i with k; [exact Hx|]
      end.
      rewrite Hnc, Hk. unfold size. lia. }
  repeat split; try assumption.
  unfold trampoline. destruct (Z.eqb_spec (size c) 1); [lia|]. simpl.
  rewrite Hone. fold (valid_window_begin c n).
  rewrite select_quantile_short_circuit by reflexivity.
  now rewrite Hread.
Qed.

End LoneValid.

Lemma lone_valid_element_sorted_witness :
  (2 <= size Example.lone_before /\
   valid_rows Example.lone_before = [2%nat] /\
   nth_error (col_data Example.lone_before) 2 = Some 5 /\
   nulls_placed Example.lone_before BEFORE = true) /\
  Example.trampoline_int Example.lone_before (1 # 2) true ASCENDING BEFORE LINEAR =
  Ok (numeric_scalar (inject_Z 5)).
Proof.
  assert (H : 2 <= size Example.lone_before /\
              valid_rows Example.lone_before = [2%nat] /\
              nth_error (col_data Example.lone_before) 2 = Some 5 /\
              nulls_placed Example.lone_before BEFORE = true).
  { repeat split; try reflexivity. unfold size. simpl. lia. }
  split; [exact H|].
  destruct H as (H1 & H2 & H3 & H4).
  apply (lone_valid_element_sorted inject_Z Z.ltb Example.lone_before 2 5
           (1 # 2) LINEAR ASCENDING BEFORE H1 H2 H3 H4).
Defined.

(** ** The claims on the example columns *)

Lemma single_element_column_witness :
  (col_data Example.singleton = [42] /\
   is_null Example.singleton 0 = false /\
   Example.tag_is_arithmetic (col_type Example.singleton) = true) /\
  Example.quantiles_int [Example.singleton] (3 # 5) MIDPOINT false
                        [DESCENDING] [BEFORE] =
  Ok [numeric_scalar (inject_Z 42)].
Proof.
  split; [repeat split|].
  apply (single_element_column inject_Z Z.ltb Example.tag_is_arithmetic
           Example.singleton 42 (3 # 5) MIDPOINT false DESCENDING BEFORE);
    reflexivity.
Defined.

Lemma all_null_nothing : all_null Example.nothing.
Proof.
  intros i Hi. change (num_rows Example.nothing) with 2%nat in Hi.
  destruct i as [|[|i]]; [reflexivity | reflexivity | lia].
Qed.

Lemma invalid_exactly_when_all_null_witness :
  let tbl := [Example.scenario_sorted; Example.nothing] in
  let out := [{| value := 6 # 2; is_valid := true |}; zero_invalid] in
  (Example.quantiles_int tbl (1 # 2) LINEAR true [ASCENDING] [AFTER] = Ok out /\
   all_null Example.nothing) /\
  Forall2 invalid_iff_all_null tbl out /\
  quantiles_column inject_Z Z.ltb Example.tag_is_arithmetic Example.nothing 1
                   (1 # 2) LINEAR true [ASCENDING] [AFTER] = Ok zero_invalid.
Proof.
  intros tbl out.
  assert (Hcall : Example.quantiles_int tbl (1 # 2) LINEAR true [ASCENDING] [AFTER]
                  = Ok out) by reflexivity.
  split; [split; [exact Hcall | exact all_null_nothing]|].
  destruct (invalid_exactly_when_all_null inject_Z Z.ltb Example.tag_is_arithmetic
              tbl Example.nothing 1 (1 # 2) LINEAR true [ASCENDING] [AFTER] out)
    as [Hall Hnull].
  split; [exact (Hall Hcall) | exact (Hnull all_null_nothing)].
Defined.

(** C9, as the specification states it, fails: with two entries in each
    order vector and one column, the call returns a result. *)
Lemma mismatched_lengths_accepted :
  ~ (length [ASCENDING; DESCENDING] <> length [Example.scenario_sorted] \/
     length [AFTER; BEFORE] <> length [Example.scenario_sorted] ->
     exists e : failure,
       Example.quantiles_int [Example.scenario_sorted] (1 # 2) LINEAR true
                             [ASCENDING; DESCENDING] [AFTER; BEFORE] = Err e).
Proof.
  intros H. destruct H as [e He].
  - left. simpl. lia.
  - vm_compute in He. discriminate He.
Qed.

(** Vectors shorter than the column count are accepted as well when the
    columns they are not read for are entirely null. *)
Lemma empty_order_vectors_accepted :
  length (@nil order) <> length [Example.nothing] /\
  Example.quantiles_int [Example.nothing] (1 # 2) LINEAR false [] [] =
  Ok [zero_invalid].
Proof.
  split; [simpl; lia | reflexivity].
Qed.

(** C1: on the unsorted scenario column the interior quantile 1/2 takes the
    extrema branch for the maximum: the driver returns 5, the largest
    element, and no quantile reaches the sorting branch. *)
Theorem interior_quantile_takes_extrema :
  trampoline_state Example.scenario (1 # 2) false = BOUNDARY_QUANTILE extrema_max /\
  is_boundary (trampoline_state Example.scenario (1 # 2) false) = true /\
  Example.trampoline_int Example.scenario (1 # 2) false ASCENDING AFTER LINEAR =
  Ok (numeric_scalar (inject_Z 5)) /\
  (forall q : double, trampoline_state Example.scenario q false <> NEEDS_SORT).
Proof.
  repeat split. intros q. apply needs_sort_unreachable.
Qed.

(** C2: on the sorted column [1; 2; 3], which the sorting engine leaves as
    it is, the median is 2 with [is_sorted = true] and 3, the maximum, with
    [is_sorted = false]. *)
Theorem sorted_flag_changes_result :
  gather Example.one_two_three
         (sorted_order Z.ltb Example.one_two_three ASCENDING AFTER) =
  Example.one_two_three /\
  returns_values
    (Example.quantiles_int [Example.one_two_three] (1 # 2) LINEAR true
                           [ASCENDING] [AFTER]) [2%Q] /\
  returns_values
    (Example.quantiles_int [Example.one_two_three] (1 # 2) LINEAR false
                           [ASCENDING] [AFTER]) [3%Q].
Proof.
  split; [reflexivity|]. split.
  - eexists. split; [reflexivity|]. repeat constructor.
  - eexists. split; [reflexivity|]. repeat constructor.
Qed.

(** C3: on the unsorted column whose first row is null, with ascending order
    and nulls before, quantile 0 returns 7, the content of the slot of the
    null row, and not 1, the value at position 0 of the valid window of the
    sorted column. *)
Theorem minimum_reads_null_row :
  is_null Example.null_first 0 = true /\
  min_element (row_lexicographic_comparator Z.ltb true Example.null_first
                 ASCENDING BEFORE) (num_rows Example.null_first) = 0%nat /\
  Example.trampoline_int Example.null_first 0%Q false ASCENDING BEFORE LINEAR =
  Ok (numeric_scalar (inject_Z 7)) /\
  get_array_value
    (valid_window_begin
       (gather Example.null_first
               (sorted_order Z.ltb Example.null_first ASCENDING BEFORE)) BEFORE) 0 =
  Ok 1.
Proof.
  repeat split.
Qed.

(** Without null rows the extremum is the head of the sorted column: on the
    scenario column quantile 0 returns 1 and quantile 1 returns 5, the
    values at the first and at the last position of the sorted column. *)
Example extrema_without_nulls :
  col_data (gather Example.scenario
              (sorted_order Z.ltb Example.scenario ASCENDING AFTER)) =
  [1; 1; 3; 4; 5] /\
  Example.trampoline_int Example.scenario 0%Q false ASCENDING AFTER LINEAR =
  Ok (numeric_scalar (inject_Z 1)) /\
  Example.trampoline_int Example.scenario 1%Q false ASCENDING AFTER LINEAR =
  Ok (numeric_scalar (inject_Z 5)).
Proof. repeat split. Qed.

(** C4: on the unsorted scenario column, quantile 0.6 with LINEAR returns 5,
    the maximum, and not 3.4; 3.4 is what [select_quantile] returns on the
    sorted column, from lower index 2, upper index 3 and fraction 0.4. *)
Theorem scenario_returns_maximum :
  Example.quantiles_int [Example.scenario] (3 # 5) LINEAR false
                        [ASCENDING] [AFTER] = Ok [numeric_scalar (inject_Z 5)] /\
  ~ (inject_Z 5 == 17 # 5)%Q /\
  returns_value
    (select_quantile inject_Z (begin Example.scenario_sorted)
                     (make_counting_iterator 0) 5 (3 # 5) LINEAR) (17 # 5) /\
  lower_bound (quantile_index_ctor 5 (3 # 5)) = 2 /\
  upper_bound (quantile_index_ctor 5 (3 # 5)) = 3 /\
  (fraction (quantile_index_ctor 5 (3 # 5)) == 2 # 5)%Q.
Proof.
  split; [reflexivity|]. split; [discriminate|]. split.
  - eexists. split; [reflexivity|]. split; reflexivity.
  - repeat split.
Qed.

(** * Further properties of the code *)

(** ** The quantile index: clamping, rounding, monotonicity, reflection *)

Lemma clamp_low (q : double) :
  (q <= 0)%Q -> (std_min (std_max q 0%Q) 1%Q == 0)%Q.
Proof.
  intros Hq. unfold std_min, std_max.
  destruct (double_lt q 0%Q) eqn:E0.
  - now destruct (double_lt 1%Q 0%Q) eqn:E1.
  - apply double_lt_false in E0.
    destruct (double_lt 1%Q q) eqn:E1.
    + apply double_lt_spec in E1. exfalso.
      apply (Qlt_not_le 1%Q q E1). eapply Qle_trans; [exact Hq | discriminate].
    + now apply Qle_antisym.
Qed.

Lemma clamp_high (q : double) :
  (1 <= q)%Q -> (std_min (std_max q 0%Q) 1%Q == 1)%Q.
Proof.
  intros Hq. unfold std_min, std_max.
  destruct (double_lt q 0%Q) eqn:E0.
  - apply double_lt_spec in E0. exfalso.
    apply (Qlt_not_le q 0%Q E0). eapply Qle_trans; [|exact Hq]. discriminate.
  - destruct (double_lt 1%Q q) eqn:E1; [reflexivity|].
    apply double_lt_false in E1. now apply Qle_antisym.
Qed.

Lemma clamp_inside (q : double) :
  (0 <= q)%Q -> (q <= 1)%Q -> std_min (std_max q 0%Q) 1%Q = q.
Proof.
  intros H0 H1. unfold std_min, std_max.
  destruct (double_lt q 0%Q) eqn:E0.
  - apply double_lt_spec in E0. exfalso. now apply (Qlt_not_le q 0%Q).
  - destruct (double_lt 1%Q q) eqn:E1; [|reflexivity].
    apply double_lt_spec in E1. exfalso. now apply (Qlt_not_le 1%Q q).
Qed.

Lemma clamp_monotone (q1 q2 : double) :
  (q1 <= q2)%Q ->
  (std_min (std_max q1 0%Q) 1%Q <= std_min (std_max q2 0%Q) 1%Q)%Q.
Proof.
  intros Hle.
  destruct (clamp_range q1) as [L1 U1]. destruct (clamp_range q2) as [L2 U2].
  destruct (Qlt_le_dec q1 0%Q) as [Hneg | Hpos].
  - rewrite (clamp_low q1) by now apply Qlt_le_weak. exact L2.
  - destruct (Qlt_le_dec 1%Q q2) as [Hbig | Hsmall].
    + rewrite (clamp_high q2) by now apply Qlt_le_weak. exact U1.
    + rewrite (clamp_inside q1), (clamp_inside q2); try assumption.
      * now apply Qle_trans with q1.
      * now apply Qle_trans with q2.
Qed.

Lemma index_val_monotone (count : Z) (q1 q2 : double) :
  1 <= count -> (q1 <= q2)%Q ->
  (index_val count q1 <= index_val count q2)%Q.
Proof.
  intros Hc Hle. unfold index_val.
  apply Qmult_le_compat_r; [now apply clamp_monotone|].
  change 0%Q with (inject_Z 0). rewrite <- Zle_Qle. lia.
Qed.

(** Within the range of [size_type], [nearest] is the rounding of the
    value. *)
Lemma quantile_index_nearest (count : Z) (quantile : double) :
  1 <= count <= size_type_max ->
  inject_Z (nearest (quantile_index_ctor count quantile)) =
  std_nearbyint (index_val count quantile).
Proof.
  intros Hc.
  destruct (quantile_index_fields count quantile Hc) as (_ & _ & Hn & _).
  destruct (index_val_floor_ceiling count quantile (proj1 Hc)) as (Hf & Hfc & Hcl).
  set (v := index_val count quantile) in *.
  unfold size_type_max in Hc.
  assert (Hconv : forall z, 0 <= z <= count - 1 ->
            size_type_wrap (size_t_of_double (inject_Z z)) = z).
  { intros z Hz. unfold size_t_of_double. rewrite double_trunc_integer.
    rewrite size_t_wrap_small by lia. apply size_type_wrap_small. lia. }
  unfold quantile_index_ctor, nearest, double_of_size_type.
  rewrite (size_type_wrap_small (count - 1)) by lia.
  fold (index_val count quantile). fold v.
  destruct (std_nearbyint_cases v) as [E | E]; rewrite E; f_equal;
    apply Hconv; lia.
Qed.

Lemma quantile_index_at_boundaries_core (count : Z) (quantile : double) :
  1 <= count <= size_type_max ->
  let idx := quantile_index_ctor count quantile in
  ((quantile <= 0)%Q ->
   lower_bound idx = 0 /\ upper_bound idx = 0 /\ nearest idx = 0 /\
   (fraction idx == 0)%Q) /\
  ((1 <= quantile)%Q ->
   lower_bound idx = count - 1 /\ upper_bound idx = count - 1 /\
   nearest idx = count - 1 /\ (fraction idx == 0)%Q).
Proof.
  intros Hc idx.
  destruct (quantile_index_fields count quantile Hc) as (Hl & Hu & Hn & Hfr).
  fold idx in Hl, Hu, Hn, Hfr.
  assert (Hint : forall z : Z, (index_val count quantile == inject_Z z)%Q ->
            lower_bound idx = z /\ upper_bound idx = z /\ nearest idx = z /\
            (fraction idx == 0)%Q).
  { intros z Hz.
    assert (Hfl : Qfloor (index_val count quantile) = z)
      by (rewrite Hz; apply Qfloor_Z).
    assert (Hce : Qceiling (index_val count quantile) = z)
      by (rewrite Hz; apply Qceiling_Z).
    rewrite Hl, Hu, Hfr, Hfl, Hce. rewrite Hfl, Hce in Hn.
    repeat split; try reflexivity.
    - now destruct Hn.
    - rewrite Hz. ring. }
  split; intros Hq; apply Hint; unfold index_val.
  - rewrite (clamp_low quantile Hq). ring.
  - rewrite (clamp_high quantile Hq). ring.
Qed.

(** A quantile at or below 0 is clamped to 0 and one at or above 1 to 1: the
    index is then the first, respectively the last, position of the count,
    with no interpolation weight. *)
Theorem quantile_index_at_boundaries (count : Z) (quantile : double) :
  1 <= count <= size_type_max ->
  let idx := quantile_index_ctor count quantile in
  ((quantile <= 0)%Q ->
   lower_bound idx = 0 /\ upper_bound idx = 0 /\ nearest idx = 0 /\
   (fraction idx == 0)%Q) /\
  ((1 <= quantile)%Q ->
   lower_bound idx = count - 1 /\ upper_bound idx = count - 1 /\
   nearest idx = count - 1 /\ (fraction idx == 0)%Q).
Proof.
  apply quantile_index_at_boundaries_core.
Qed.

Lemma quantile_index_at_boundaries_witness :
  1 <= 5 <= size_type_max /\ (-1 <= 0)%Q /\
  lower_bound (quantile_index_ctor 5 (-1)%Q) = 0 /\
  upper_bound (quantile_index_ctor 5 (-1)%Q) = 0 /\
  nearest (quantile_index_ctor 5 (-1)%Q) = 0 /\
  (fraction (quantile_index_ctor 5 (-1)%Q) == 0)%Q.
Proof.
  assert (H : 1 <= 5 <= size_type_max) by (unfold size_type_max; lia).
  assert (Hq : (-1 <= 0)%Q) by discriminate.
  split; [exact H|]. split; [exact Hq|].
  exact (proj1 (quantile_index_at_boundaries 5 (-1)%Q H) Hq).
Defined.

(** The interpolation weight is zero exactly when the two neighbours are
    the same position, and [nearest] is then that position. *)
Theorem fraction_zero_iff_bounds_meet (count : Z) (quantile : double) :
  1 <= count <= size_type_max ->
  let idx := quantile_index_ctor count quantile in
  ((fraction idx == 0)%Q <-> lower_bound idx = upper_bound idx) /\
  (lower_bound idx = upper_bound idx -> nearest idx = lower_bound idx).
Proof.
  intros Hc idx.
  destruct (quantile_index_fields count quantile Hc) as (Hl & Hu & Hn & Hfr).
  fold idx in Hl, Hu, Hn, Hfr.
  set (v := (index_val count quantile : Q)) in *.
  rewrite Hl, Hu, Hfr. split; [split|].
  - intros H0.
    assert (Hv : (v == inject_Z (Qfloor v))%Q).
    { setoid_replace v with (v - inject_Z (Qfloor v) + inject_Z (Qfloor v))%Q
        at 1 by ring.
      rewrite H0. ring. }
    pose proof (Qceiling_comp _ _ Hv) as Hc'. rewrite Qceiling_Z in Hc'.
    now symmetry.
  - intros Heq.
    assert (Hv : (v == inject_Z (Qfloor v))%Q).
    { apply Qle_antisym; [|apply Qfloor_le].
      rewrite Heq. apply Qle_ceiling. }
    rewrite <- Hv. ring.
  - intros Heq. destruct Hn as [E | E]; rewrite E; [reflexivity | now symmetry].
Qed.

Lemma fraction_zero_iff_bounds_meet_witness :
  1 <= 5 <= size_type_max /\
  ((fraction (quantile_index_ctor 5 (1 # 2)) == 0)%Q <->
   lower_bound (quantile_index_ctor 5 (1 # 2)) =
   upper_bound (quantile_index_ctor 5 (1 # 2))).
Proof.
  assert (H : 1 <= 5 <= size_type_max) by (unfold size_type_max; lia).
  split; [exact H|].
  exact (proj1 (fraction_zero_iff_bounds_meet 5 (1 # 2) H)).
Defined.

Lemma inject_Z_eq (a b : Z) : inject_Z a = inject_Z b -> a = b.
Proof. intros H. now injection H. Qed.

Lemma nearest_rounds_half_to_even_core (count : Z) (quantile : double) :
  1 <= count <= size_type_max ->
  let idx := quantile_index_ctor count quantile in
  ((fraction idx < 1 # 2)%Q -> nearest idx = lower_bound idx) /\
  ((1 # 2 < fraction idx)%Q ->
   nearest idx = upper_bound idx /\ upper_bound idx = lower_bound idx + 1) /\
  ((fraction idx == 1 # 2)%Q ->
   Z.even (nearest idx) = true /\ upper_bound idx = lower_bound idx + 1 /\
   (nearest idx = lower_bound idx \/ nearest idx = upper_bound idx)).
Proof.
  intros Hc idx.
  pose proof (quantile_index_nearest count quantile Hc) as Hnear.
  destruct (quantile_index_fields count quantile Hc) as (Hl & Hu & _ & Hfr).
  fold idx in Hnear, Hl, Hu, Hfr.
  set (v := (index_val count quantile : Q)) in *.
  assert (Hup : (0 < fraction idx)%Q -> Qceiling v = Qfloor v + 1).
  { intros Hpos. apply Qceiling_above_floor.
    rewrite Hfr in Hpos.
    apply (Qplus_lt_l _ _ (- inject_Z (Qfloor v))).
    now rewrite Qplus_opp_r. }
  unfold std_nearbyint in Hnear. fold v in Hnear. rewrite <- Hfr in Hnear.
  rewrite Hl, Hu.
  split; [|split].
  - intros Hlt. apply double_lt_spec in Hlt. rewrite Hlt in Hnear.
    now apply inject_Z_eq in Hnear.
  - intros Hgt.
    assert (Hnot : double_lt (fraction idx) (1 # 2) = false).
    { apply double_lt_false. now apply Qlt_le_weak. }
    rewrite Hnot in Hnear. apply double_lt_spec in Hgt. rewrite Hgt in Hnear.
    rewrite Hup; [split; [now apply inject_Z_eq in Hnear | reflexivity]|].
    apply double_lt_spec in Hgt. eapply Qlt_trans; [|exact Hgt]. reflexivity.
  - intros Htie.
    assert (Hnot1 : double_lt (fraction idx) (1 # 2) = false).
    { apply double_lt_false. rewrite Htie. apply Qle_refl. }
    assert (Hnot2 : double_lt (1 # 2) (fraction idx) = false).
    { apply double_lt_false. rewrite Htie. apply Qle_refl. }
    rewrite Hnot1, Hnot2 in Hnear.
    rewrite Hup by (rewrite Htie; reflexivity).
    destruct (Z.even (Qfloor v)) eqn:Ev; apply inject_Z_eq in Hnear;
      rewrite Hnear.
    + repeat split; [exact Ev | now left].
    + repeat split; [|now right].
      rewrite Z.even_add, Ev. reflexivity.
Qed.

(** How NEAREST picks its position: the lower neighbour when the weight is
    below one half, the upper one when it is above, and on a tie the even
    one of the two. *)
Theorem nearest_rounds_half_to_even (count : Z) (quantile : double) :
  1 <= count <= size_type_max ->
  let idx := quantile_index_ctor count quantile in
  ((fraction idx < 1 # 2)%Q -> nearest idx = lower_bound idx) /\
  ((1 # 2 < fraction idx)%Q ->
   nearest idx = upper_bound idx /\ upper_bound idx = lower_bound idx + 1) /\
  ((fraction idx == 1 # 2)%Q ->
   Z.even (nearest idx) = true /\ upper_bound idx = lower_bound idx + 1 /\
   (nearest idx = lower_bound idx \/ nearest idx = upper_bound idx)).
Proof.
  apply nearest_rounds_half_to_even_core.
Qed.

Lemma nearest_rounds_half_to_even_witness :
  1 <= 5 <= size_type_max /\
  (fraction (quantile_index_ctor 5 (5 # 8)) == 1 # 2)%Q /\
  Z.even (nearest (quantile_index_ctor 5 (5 # 8))) = true /\
  nearest (quantile_index_ctor 5 (5 # 8)) = 2.
Proof.
  assert (H : 1 <= 5 <= size_type_max) by (unfold size_type_max; lia).
  assert (Ht : (fraction (quantile_index_ctor 5 (5 # 8)) == 1 # 2)%Q)
    by reflexivity.
  split; [exact H|]. split; [exact Ht|].
  split; [|reflexivity].
  exact (proj1 (proj2 (proj2 (nearest_rounds_half_to_even 5 (5 # 8) H)) Ht)).
Defined.

Lemma quantile_index_monotone_core (count : Z) (q1 q2 : double) :
  1 <= count <= size_type_max ->
  (q1 <= q2)%Q ->
  lower_bound (quantile_index_ctor count q1) <=
  lower_bound (quantile_index_ctor count q2) /\
  upper_bound (quantile_index_ctor count q1) <=
  upper_bound (quantile_index_ctor count q2) /\
  nearest (quantile_index_ctor count q1) <=
  nearest (quantile_index_ctor count q2).
Proof.
  intros Hc Hle.
  pose proof (index_val_monotone count q1 q2 (proj1 Hc) Hle) as Hv.
  destruct (quantile_index_fields count q1 Hc) as (Hl1 & Hu1 & _ & Hf1).
  destruct (quantile_index_fields count q2 Hc) as (Hl2 & Hu2 & _ & Hf2).
  pose proof (quantile_index_bounds count q1 Hc) as B1.
  pose proof (quantile_index_bounds count q2 Hc) as B2.
  pose proof (nearest_rounds_half_to_even_core count q1 Hc) as (Lo1 & Hi1 & Tie1).
  pose proof (nearest_rounds_half_to_even_core count q2 Hc) as (Lo2 & Hi2 & Tie2).
  cbv zeta in *.
  set (i1 := quantile_index_ctor count q1) in *.
  set (i2 := quantile_index_ctor count q2) in *.
  assert (Hlow : lower_bound i1 <= lower_bound i2).
  { rewrite Hl1, Hl2. now apply Qfloor_resp_le. }
  assert (Hupp : upper_bound i1 <= upper_bound i2).
  { rewrite Hu1, Hu2. now apply Qceiling_resp_le. }
  repeat split; try assumption.
  destruct (Z.eq_dec (lower_bound i1) (lower_bound i2)) as [Heq | Hne]; [|lia].
  assert (Hfr : (fraction i1 <= fraction i2)%Q).
  { rewrite Hf1, Hf2, <- Hl1, <- Hl2, Heq. now apply Qplus_le_l. }
  destruct (Q_dec (fraction i2) (1 # 2)) as [[Hlt | Hgt] | Htie].
  - rewrite (Lo2 Hlt), (Lo1 (Qle_lt_trans _ _ _ Hfr Hlt)). lia.
  - destruct (Hi2 Hgt) as [E2 _]. lia.
  - destruct (Tie2 Htie) as (Ev2 & Up2 & Or2).
    destruct (Q_dec (fraction i1) (1 # 2)) as [[Hlt1 | Hgt1] | Htie1].
    + rewrite (Lo1 Hlt1). lia.
    + exfalso. apply (Qlt_not_le _ _ Hgt1). now rewrite <- Htie.
    + destruct (Tie1 Htie1) as (Ev1 & Up1 & Or1).
      destruct Or1 as [E1 | E1], Or2 as [E2 | E2]; try lia.
      exfalso. rewrite E1, Up1 in Ev1. rewrite E2, <- Heq in Ev2.
      rewrite Z.even_add, Ev2 in Ev1. discriminate.
Qed.

(** The index does not decrease when the quantile grows. *)
Theorem quantile_index_monotone (count : Z) (q1 q2 : double) :
  1 <= count <= size_type_max ->
  (q1 <= q2)%Q ->
  lower_bound (quantile_index_ctor count q1) <=
  lower_bound (quantile_index_ctor count q2) /\
  upper_bound (quantile_index_ctor count q1) <=
  upper_bound (quantile_index_ctor count q2) /\
  nearest (quantile_index_ctor count q1) <=
  nearest (quantile_index_ctor count q2).
Proof.
  apply quantile_index_monotone_core.
Qed.

Lemma quantile_index_monotone_witness :
  (1 <= 5 <= size_type_max /\ (1 # 4 <= 3 # 5)%Q) /\
  nearest (quantile_index_ctor 5 (1 # 4)) <=
  nearest (quantile_index_ctor 5 (3 # 5)).
Proof.
  assert (H : 1 <= 5 <= size_type_max) by (unfold size_type_max; lia).
  assert (Hq : (1 # 4 <= 3 # 5)%Q) by discriminate.
  split; [now split|].
  exact (proj2 (proj2 (quantile_index_monotone 5 (1 # 4) (3 # 5) H Hq))).
Defined.






(** ** extrema and the unsorted path *)

Lemma min_element_from_In (comp : nat -> nat -> bool) (rest : list nat) :
  forall smallest : nat,
    In (min_element_from comp smallest rest) (smallest :: rest).
Proof.
  induction rest as [|i rest IH]; intros smallest; simpl.
  - now left.
  - destruct (IH (if comp i smallest then i else smallest)) as [E | Hin].
    + destruct (comp i smallest); rewrite <- E; auto.
    + auto.
Qed.

Lemma max_element_from_In (comp : nat -> nat -> bool) (rest : list nat) :
  forall largest : nat,
    In (max_element_from comp largest rest) (largest :: rest).
Proof.
  induction rest as [|i rest IH]; intros largest; simpl.
  - now left.
  - destruct (IH (if comp largest i then i else largest)) as [E | Hin].
    + destruct (comp largest i); rewrite <- E; auto.
    + auto.
Qed.

Lemma min_element_in_range (comp : nat -> nat -> bool) (n : nat) :
  (0 < n)%nat -> (min_element comp n < n)%nat.
Proof.
  intros Hn. unfold min_element.
  destruct (seq 0 n) as [|first rest] eqn:E.
  - destruct n; [lia | discriminate].
  - pose proof (min_element_from_In comp rest first) as Hin.
    rewrite <- E in Hin. apply in_seq in Hin. lia.
Qed.

Lemma max_element_in_range (comp : nat -> nat -> bool) (n : nat) :
  (0 < n)%nat -> (max_element comp n < n)%nat.
Proof.
  intros Hn. unfold max_element.
  destruct (seq 0 n) as [|first rest] eqn:E.
  - destruct n; [lia | discriminate].
  - pose proof (max_element_from_In comp rest first) as Hin.
    rewrite <- E in Hin. apply in_seq in Hin. lia.
Qed.

Section Extrema.

Context {T type_id : Type}.
Variable to_double : T -> double.
Variable less : T -> T -> bool.
Implicit Type c : column_view T type_id.

Lemma begin_read c (k : nat) (x : T) :
  nth_error (col_data c) k = Some x ->
  get_array_value (begin c) (Z.of_nat k) = Ok x.
Proof.
  intros Hx. apply get_array_value_at; [lia|].
  now rewrite Z.add_0_l, Nat2Z.id.
Qed.

Lemma extrema_reads_a_row_core (minmax : extrema_minmax) (has_nulls : bool) c
    (o : order) (n : null_order) :
  (col_data c = [] ->
   extrema to_double less minmax has_nulls c o n = Err out_of_bounds) /\
  (col_data c <> [] ->
   exists (k : nat) (x : T),
     (k < num_rows c)%nat /\ nth_error (col_data c) k = Some x /\
     extrema to_double less minmax has_nulls c o n =
     Ok (numeric_scalar (to_double x))).
Proof.
  split.
  - intros He. unfold extrema, num_rows, begin. rewrite He.
    now destruct minmax.
  - intros Hne.
    assert (Hpos : (0 < num_rows c)%nat).
    { unfold num_rows. destruct (col_data c); [contradiction | simpl; lia]. }
    unfold extrema.
    set (k := match minmax with
              | extrema_min => min_element _ _
              | extrema_max => max_element _ _
              end).
    assert (Hk : (k < num_rows c)%nat).
    { unfold k. destruct minmax;
        [now apply min_element_in_range | now apply max_element_in_range]. }
    destruct (nth_error (col_data c) k) as [x|] eqn:Ex.
    + exists k, x. repeat split; try assumption.
      now rewrite (begin_read c k x Ex).
    + apply nth_error_None in Ex. unfold num_rows in Hk. lia.
Qed.

(** [extrema] on a column without rows reads position 0 of an empty buffer;
    on a column with rows it returns the element of one of its rows, marked
    valid, whatever the comparator decides. *)
Theorem extrema_reads_a_row (minmax : extrema_minmax) (has_nulls : bool) c
    (o : order) (n : null_order) :
  (col_data c = [] ->
   extrema to_double less minmax has_nulls c o n = Err out_of_bounds) /\
  (col_data c <> [] ->
   exists (k : nat) (x : T),
     (k < num_rows c)%nat /\ nth_error (col_data c) k = Some x /\
     extrema to_double less minmax has_nulls c o n =
     Ok (numeric_scalar (to_double x))).
Proof.
  apply extrema_reads_a_row_core.
Qed.

End Extrema.

Lemma extrema_reads_a_row_witness :
  col_data Example.scenario <> [] /\
  exists (k : nat) (x : Z),
    (k < num_rows Example.scenario)%nat /\
    nth_error (col_data Example.scenario) k = Some x /\
    extrema inject_Z Z.ltb extrema_max false Example.scenario ASCENDING AFTER =
    Ok (numeric_scalar (inject_Z x)).
Proof.
  assert (H : col_data Example.scenario <> []) by discriminate.
  split; [exact H|].
  exact (proj2 (extrema_reads_a_row inject_Z Z.ltb extrema_max false
                  Example.scenario ASCENDING AFTER) H).
Defined.


Lemma ptr_add_zero {T : Type} (p : pointer T) : ptr_add p 0 = p.
Proof.
  destruct p as [buf off]. unfold ptr_add. simpl. now rewrite Z.add_0_r.
Qed.

Section UnsortedPath.

Context {T type_id : Type}.
Variable to_double : T -> double.
Variable less : T -> T -> bool.
Implicit Type c : column_view T type_id.

(** On a column that is not declared sorted, of another size than one, the
    driver returns the minimum for a quantile at or below 0 and the maximum
    for every quantile above 0, whatever the quantile is otherwise. *)
Theorem unsorted_result_is_an_extremum c (quantile : double) (o : order)
    (n : null_order) (interp : interpolation) :
  size c <> 1 ->
  ((quantile <= 0)%Q ->
   trampoline to_double less c quantile false o n interp =
   extrema to_double less extrema_min (nullable c) c o n) /\
  ((0 < quantile)%Q ->
   trampoline to_double less c quantile false o n interp =
   extrema to_double less extrema_max (nullable c) c o n).
Proof.
  intros Hs. split; intros Hq; rewrite trampoline_run_state.
  - unfold trampoline_state.
    destruct (Z.eqb_spec (size c) 1); [contradiction|]. simpl.
    apply double_le_spec in Hq. now rewrite Hq.
  - now rewrite (unsorted_positive_quantile_state c quantile Hs Hq).
Qed.


(** On a column declared sorted the order is never looked at, and neither
    is the null placement when the column has no null row. *)
Theorem sorted_ignores_order c (quantile : double) (interp : interpolation)
    (o1 o2 : order) (n1 n2 : null_order) :
  trampoline to_double less c quantile true o1 n1 interp =
  trampoline to_double less c quantile true o2 n1 interp /\
  (null_count c = 0 ->
   trampoline to_double less c quantile true o1 n1 interp =
   trampoline to_double less c quantile true o2 n2 interp).
Proof.
  split; [reflexivity|].
  intros H0. unfold trampoline. rewrite H0, ptr_add_zero.
  destruct (size c =? 1); [reflexivity|]. simpl.
  now destruct (null_order_eqb n1 AFTER), (null_order_eqb n2 AFTER).
Qed.

End UnsortedPath.

Lemma unsorted_result_is_an_extremum_witness :
  (size Example.scenario <> 1 /\ (0 < 1 # 4)%Q) /\
  Example.trampoline_int Example.scenario (1 # 4) false ASCENDING AFTER MIDPOINT =
  extrema inject_Z Z.ltb extrema_max (nullable Example.scenario)
          Example.scenario ASCENDING AFTER.
Proof.
  assert (Hs : size Example.scenario <> 1) by discriminate.
  assert (Hq : (0 < 1 # 4)%Q) by reflexivity.
  split; [now split|].
  exact (proj2 (unsorted_result_is_an_extremum inject_Z Z.ltb Example.scenario
                  (1 # 4) ASCENDING AFTER MIDPOINT Hs) Hq).
Defined.

Lemma sorted_ignores_order_witness :
  null_count Example.scenario_sorted = 0 /\
  Example.trampoline_int Example.scenario_sorted (3 # 5) true ASCENDING AFTER LOWER =
  Example.trampoline_int Example.scenario_sorted (3 # 5) true DESCENDING BEFORE LOWER.
Proof.
  assert (H : null_count Example.scenario_sorted = 0) by reflexivity.
  split; [exact H|].
  exact (proj2 (sorted_ignores_order inject_Z Z.ltb Example.scenario_sorted
                  (3 # 5) LOWER ASCENDING DESCENDING AFTER BEFORE) H).
Defined.

(** ** The sorted path *)

Lemma linear_same_neighbour (a f : Q) : (a + f * (a - a) == a)%Q.
Proof. ring. Qed.

Lemma midpoint_same_neighbour (a : Q) : ((a + a) / 2 == a)%Q.
Proof. field. Qed.

Section SortedPath.

Context {T type_id : Type}.
Variable to_double : T -> double.
Variable less : T -> T -> bool.
Implicit Type c : column_view T type_id.

(** When both neighbours are the position [z] of the window, every mode
    returns the element at [z]. *)
Lemma select_quantile_same_neighbour (p : pointer T) (sz : Z) (quantile : double)
    (z : Z) :
  0 <= ptr_off p ->
  1 <= sz <= size_type_max ->
  ptr_off p + sz <= Z.of_nat (length (ptr_buf p)) ->
  lower_bound (quantile_index_ctor sz quantile) = z ->
  upper_bound (quantile_index_ctor sz quantile) = z ->
  exists x : T,
    get_array_value p z = Ok x /\
    forall interp : interpolation,
      returns_value
        (select_quantile to_double p (make_counting_iterator 0) sz quantile interp)
        (to_double x).
Proof.
  intros Hoff Hs Hfit Hl Hu.
  pose proof (quantile_index_bounds sz quantile Hs) as Hb. cbv zeta in Hb.
  assert (Hn : nearest (quantile_index_ctor sz quantile) = z) by lia.
  assert (Hz : 0 <= z < sz) by lia.
  destruct (get_array_value_window p sz z Hoff Hfit Hz) as (x & Hget & _).
  exists x. split; [exact Hget|]. intros interp.
  unfold select_quantile. destruct (Z.ltb_spec sz 2) as [Hlt | Hge].
  - replace z with 0 in Hget by lia. rewrite Hget. simpl.
    eexists. split; [reflexivity|]. split; [reflexivity|]. simpl. reflexivity.
  - unfold size_type_max in Hs. rewrite (size_type_wrap_small sz) by lia.
    unfold make_counting_iterator. rewrite Hl, Hu, Hn, Z.add_0_l.
    destruct interp; rewrite Hget; simpl;
      (eexists; split; [reflexivity|]; split; [reflexivity|]; simpl).
    + apply linear_same_neighbour.
    + apply midpoint_same_neighbour.
    + reflexivity.
    + reflexivity.
    + reflexivity.
Qed.

(** Over a window inside the buffer, a quantile at or below 0 returns the
    first element of the window and a quantile at or above 1 the last one,
    in every interpolation mode. *)
Theorem select_quantile_at_boundaries (p : pointer T) (sz : Z) (quantile : double) :
  0 <= ptr_off p ->
  1 <= sz <= size_type_max ->
  ptr_off p + sz <= Z.of_nat (length (ptr_buf p)) ->
  ((quantile <= 0)%Q ->
   exists x : T,
     get_array_value p 0 = Ok x /\
     forall interp : interpolation,
       returns_value
         (select_quantile to_double p (make_counting_iterator 0) sz quantile interp)
         (to_double x)) /\
  ((1 <= quantile)%Q ->
   exists x : T,
     get_array_value p (sz - 1) = Ok x /\
     forall interp : interpolation,
       returns_value
         (select_quantile to_double p (make_counting_iterator 0) sz quantile interp)
         (to_double x)).
Proof.
  intros Hoff Hs Hfit.
  destruct (quantile_index_at_boundaries_core sz quantile Hs) as [Hlow Hhigh].
  split; intros Hq.
  - destruct (Hlow Hq) as (Hl & Hu & _).
    now apply select_quantile_same_neighbour.
  - destruct (Hhigh Hq) as (Hl & Hu & _).
    now apply select_quantile_same_neighbour.
Qed.


End SortedPath.

Lemma select_quantile_at_boundaries_witness :
  let p := {| ptr_buf := [1; 1; 3; 4; 5]; ptr_off := 0 |} in
  (0 <= ptr_off p /\ 1 <= 5 <= size_type_max /\
   ptr_off p + 5 <= Z.of_nat (length (ptr_buf p)) /\ (1 <= 2)%Q) /\
  exists x : Z,
    get_array_value p (5 - 1) = Ok x /\
    returns_value
      (select_quantile inject_Z p (make_counting_iterator 0) 5 2%Q LINEAR)
      (inject_Z x).
Proof.
  intros p.
  assert (H1 : 0 <= ptr_off p) by (simpl; lia).
  assert (H2 : 1 <= 5 <= size_type_max) by (unfold size_type_max; lia).
  assert (H3 : ptr_off p + 5 <= Z.of_nat (length (ptr_buf p))) by (simpl; lia).
  assert (H4 : (1 <= 2)%Q) by discriminate.
  split; [repeat split; assumption|].
  destruct (proj2 (select_quantile_at_boundaries inject_Z p 5 2%Q H1 H2 H3) H4)
    as (x & Hget & Hall).
  exists x. split; [exact Hget | apply Hall].
Defined.

Lemma get_array_value_inv {T : Type} (p : pointer T) (i : Z) (x : T) :
  get_array_value p i = Ok x ->
  0 <= ptr_off p + i /\
  nth_error (ptr_buf p) (Z.to_nat (ptr_off p + i)) = Some x.
Proof.
  unfold get_array_value.
  destruct (Z.ltb_spec (ptr_off p + i) 0); [discriminate|].
  destruct (nth_error (ptr_buf p) (Z.to_nat (ptr_off p + i))) as [y|];
    [|discriminate].
  intros H'. inversion H'. now split.
Qed.



Section ValidWindow.

Context {T type_id : Type}.
Variable to_double : T -> double.
Variable less : T -> T -> bool.
Implicit Type c : column_view T type_id.









End ValidWindow.





(** ** The table-level loop *)

Section TableLoop.

Context {T type_id : Type}.
Variable to_double : T -> double.
Variable less : T -> T -> bool.
Variable is_arithmetic : type_id -> bool.
Implicit Type c : column_view T type_id.
Implicit Type tbl : list (column_view T type_id).

Lemma quantiles_from_pointwise tbl :
  forall (k : nat) (quantile : double) (interp : interpolation) (is_sorted : bool)
         (orders : list order) (null_orders : list null_order) (out : list scalar),
    quantiles_from to_double less is_arithmetic tbl k quantile interp is_sorted
                   orders null_orders = Ok out ->
    length out = length tbl /\
    forall (i : nat) c,
      nth_error tbl i = Some c ->
      exists r : scalar,
        nth_error out i = Some r /\
        quantiles_column to_double less is_arithmetic c (k + i) quantile interp
                         is_sorted orders null_orders = Ok r.
Proof.
  induction tbl as [|c0 tbl IH]; intros k quantile interp is_sorted orders
    null_orders out H; simpl in H.
  - inversion H. split; [reflexivity|]. intros [|i] c Hc; discriminate Hc.
  - destruct (quantiles_column to_double less is_arithmetic c0 k quantile interp
                is_sorted orders null_orders) as [r0|] eqn:E0; [|discriminate].
    simpl in H.
    destruct (quantiles_from to_double less is_arithmetic tbl (S k) quantile
                interp is_sorted orders null_orders) as [rs|] eqn:Er;
      [|discriminate].
    simpl in H. inversion H. subst out.
    destruct (IH _ _ _ _ _ _ _ Er) as [Hlen Hpt].
    split; [simpl; now rewrite Hlen|].
    intros [|i] c Hc; simpl in Hc.
    + inversion Hc. subst c. exists r0. rewrite Nat.add_0_r. now split.
    + destruct (Hpt i c Hc) as (r & Hr & Hq). exists r.
      replace (k + S i)%nat with (S k + i)%nat by lia. now split.
Qed.

(** A call that returns has one scalar per column, in the order of the
    columns, and the scalar of column [i] is what the loop body computes
    from that column and position [i] of the vectors alone. *)
Theorem quantiles_one_result_per_column tbl (quantile : double)
    (interp : interpolation) (is_sorted : bool)
    (orders : list order) (null_orders : list null_order) (out : list scalar) :
  quantiles to_double less is_arithmetic tbl quantile interp is_sorted
            orders null_orders = Ok out ->
  length out = length tbl /\
  forall (i : nat) c,
    nth_error tbl i = Some c ->
    exists r : scalar,
      nth_error out i = Some r /\
      quantiles_column to_double less is_arithmetic c i quantile interp
                       is_sorted orders null_orders = Ok r.
Proof.
  intros H. apply quantiles_from_pointwise in H. exact H.
Qed.





End TableLoop.

Lemma quantiles_one_result_per_column_witness :
  let tbl := [Example.scenario_sorted; Example.nothing] in
  let out := [{| value := 6 # 2; is_valid := true |}; zero_invalid] in
  Example.quantiles_int tbl (1 # 2) LINEAR true [ASCENDING] [AFTER] = Ok out /\
  length out = length tbl.
Proof.
  intros tbl out.
  assert (H : Example.quantiles_int tbl (1 # 2) LINEAR true [ASCENDING] [AFTER]
              = Ok out) by reflexivity.
  split; [exact H|].
  exact (proj1 (quantiles_one_result_per_column inject_Z Z.ltb
                  Example.tag_is_arithmetic tbl (1 # 2) LINEAR true
                  [ASCENDING] [AFTER] out H)).
Defined.


(** ** Sorted windows *)

Lemma StronglySorted_nth_le {A : Type} (R : A -> A -> Prop) (l : list A) :
  StronglySorted R l ->
  forall (i j : nat) (x y : A),
    (i < j)%nat -> nth_error l i = Some x -> nth_error l j = Some y -> R x y.
Proof.
  induction 1 as [|a l Hs IH Hall]; intros i j x y Hij Hx Hy.
  - destruct i; discriminate Hx.
  - destruct j as [|j]; [lia|]. simpl in Hy.
    destruct i as [|i]; simpl in Hx.
    + inversion Hx. subst a. rewrite Forall_forall in Hall.
      apply Hall. now apply nth_error_In in Hy.
    + apply (IH i j x y); [lia | assumption | assumption].
Qed.

Lemma get_array_value_window_nth {T : Type} (p : pointer T) (sz i : Z) (x : T) :
  0 <= ptr_off p ->
  0 <= i < sz ->
  get_array_value p i = Ok x ->
  nth_error (window p sz) (Z.to_nat i) = Some x.
Proof.
  intros Hoff Hi Hget. apply get_array_value_inv in Hget.
  destruct Hget as [_ Hnth]. unfold window.
  rewrite nth_error_firstn.
  destruct (Nat.ltb_spec (Z.to_nat i) (Z.to_nat sz)); [|lia].
  rewrite nth_error_skipn.
  replace (Z.to_nat (ptr_off p) + Z.to_nat i)%nat
    with (Z.to_nat (ptr_off p + i)) by lia.
  exact Hnth.
Qed.

Section SortedWindow.

Context {T : Type}.
Variable to_double : T -> double.

Lemma window_reads_ordered (p : pointer T) (sz i j : Z) (x y : T) :
  window_nondecreasing to_double p sz ->
  0 <= ptr_off p ->
  0 <= i -> i <= j -> j < sz ->
  get_array_value p i = Ok x ->
  get_array_value p j = Ok y ->
  (to_double x <= to_double y)%Q.
Proof.
  intros Hs Hoff Hi Hij Hj Hx Hy.
  destruct (Z.eq_dec i j) as [-> | Hne].
  - rewrite Hx in Hy. inversion Hy. apply Qle_refl.
  - apply (StronglySorted_nth_le _ _ Hs (Z.to_nat i) (Z.to_nat j)).
    + lia.
    + apply get_array_value_window_nth; [assumption | lia | assumption].
    + apply get_array_value_window_nth; [assumption | lia | assumption].
Qed.

End SortedWindow.

Section SortedWindowModes.

Context {T : Type}.
Variable to_double : T -> double.


(** On a window in nondecreasing order the result of a mode that reads one
    element does not decrease when the quantile grows. *)
Theorem one_element_modes_monotone (p : pointer T) (sz : Z) (q1 q2 : double)
    (interp : interpolation) :
  window_nondecreasing to_double p sz ->
  0 <= ptr_off p ->
  1 <= sz <= size_type_max ->
  ptr_off p + sz <= Z.of_nat (length (ptr_buf p)) ->
  reads_one_element interp = true ->
  (q1 <= q2)%Q ->
  exists x1 x2 : T,
    select_quantile to_double p (make_counting_iterator 0) sz q1 interp =
    Ok (numeric_scalar (to_double x1)) /\
    select_quantile to_double p (make_counting_iterator 0) sz q2 interp =
    Ok (numeric_scalar (to_double x2)) /\
    (to_double x1 <= to_double x2)%Q.
Proof.
  intros Hsorted Hoff Hs Hfit Hone Hq.
  pose proof (quantile_index_bounds sz q1 Hs) as B1.
  pose proof (quantile_index_bounds sz q2 Hs) as B2.
  cbv zeta in B1, B2.
  destruct (quantile_index_monotone_core sz q1 q2 Hs Hq) as (Ml & Mu & Mn).
  destruct (select_quantile_element to_double p sz q1 interp Hoff Hs Hfit Hone)
    as (x1 & H1 & _ & S1).
  destruct (select_quantile_element to_double p sz q2 interp Hoff Hs Hfit Hone)
    as (x2 & H2 & _ & S2).
  exists x1, x2. repeat split; try assumption.
  apply (window_reads_ordered to_double p sz
           (picked_index interp (quantile_index_ctor sz q1))
           (picked_index interp (quantile_index_ctor sz q2)) x1 x2 Hsorted Hoff);
    try assumption; destruct interp; unfold picked_index; lia.
Qed.

End SortedWindowModes.

Lemma scenario_window_nondecreasing :
  window_nondecreasing inject_Z {| ptr_buf := [1; 1; 3; 4; 5]; ptr_off := 0 |} 5.
Proof.
  unfold window_nondecreasing.
  change (window {| ptr_buf := [1; 1; 3; 4; 5]; ptr_off := 0 |} 5)
    with [1; 1; 3; 4; 5].
  repeat (constructor; try discriminate).
Qed.


Lemma one_element_modes_monotone_witness :
  let p := {| ptr_buf := [1; 1; 3; 4; 5]; ptr_off := 0 |} in
  (window_nondecreasing inject_Z p 5 /\ 0 <= ptr_off p /\
   1 <= 5 <= size_type_max /\
   ptr_off p + 5 <= Z.of_nat (length (ptr_buf p)) /\
   reads_one_element NEAREST = true /\ (1 # 4 <= 3 # 5)%Q) /\
  exists x1 x2 : Z,
    select_quantile inject_Z p (make_counting_iterator 0) 5 (1 # 4) NEAREST =
    Ok (numeric_scalar (inject_Z x1)) /\
    select_quantile inject_Z p (make_counting_iterator 0) 5 (3 # 5) NEAREST =
    Ok (numeric_scalar (inject_Z x2)) /\
    (inject_Z x1 <= inject_Z x2)%Q.
Proof.
  intros p.
  assert (H1 : 0 <= ptr_off p) by (simpl; lia).
  assert (H2 : 1 <= 5 <= size_type_max) by (unfold size_type_max; lia).
  assert (H3 : ptr_off p + 5 <= Z.of_nat (length (ptr_buf p))) by (simpl; lia).
  assert (H4 : reads_one_element NEAREST = true) by reflexivity.
  assert (H5 : (1 # 4 <= 3 # 5)%Q) by discriminate.
  split; [exact (conj scenario_window_nondecreasing
                   (conj H1 (conj H2 (conj H3 (conj H4 H5)))))|].
  exact (one_element_modes_monotone inject_Z p 5 (1 # 4) (3 # 5) NEAREST
           scenario_window_nondecreasing H1 H2 H3 H4 H5).
Defined.
